(** * del::event<R(Args...)>: a multicast callback dispatcher

    A shallow embedding of [src/delevent.h].  The class keeps a
    [std::vector<std::unique_ptr<base_callable>>]; records are appended by
    [attach], removed by [detach] / [detach_all] / [clear] and run front to
    back by [operator()].

    Modelling decisions, all taken from the source:
    - a [unique_ptr<base_callable>] is an [option base_callable] ([None] is
      [nullptr]); the vector is a [list] of them, in storage order;
    - [generic_callable_handle<T>] and [object_callable_handle<T>] carry
      their template argument, because [compare] narrows its argument with
      [dynamic_cast<...<T> *>];
    - [m_Func], [m_Obj] and [m_MemFunc] are addresses, compared by [==]:
      callables are taken to be pointer-like, [==] being equality of
      addresses;
    - what a callable does when applied is given by a [program]: it reads
      and may write the argument objects (which [operator()] hands on by
      reference through [std::forward<Args>(args)...]) and the rest of the
      world, and returns an [R]; callables are taken to return normally;
    - an operation whose behaviour the language leaves undefined yields
      [Undefined]. *)

From stdpp Require Import base numbers option list.

Set Default Proof Using "Type".

(** ** Outcomes *)

Inductive result (A : Type) : Type :=
| Done (a : A)
| Undefined.
Arguments Done {A} a.
Arguments Undefined {A}.

(** ** The type-erased records *)

(** Identifies the type a handle template is instantiated with. *)
Definition type_id := N.
Definition address := N.

Inductive base_callable : Type :=
| generic_callable_handle (T : type_id) (m_Func : address)
| object_callable_handle (T : type_id) (m_Obj : address) (m_MemFunc : address).

(** [base_callable *], and what a [std::unique_ptr<base_callable>] holds. *)
Definition pointer := option base_callable.

Definition is_generic (h : base_callable) : bool :=
  match h with generic_callable_handle _ _ => true | _ => false end.

Definition is_object (h : base_callable) : bool :=
  match h with object_callable_handle _ _ _ => true | _ => false end.

(** [dynamic_cast<generic_callable_handle<T> *>(bc)]: the fields of the
    target when [bc] points to exactly that class, null otherwise (also
    when [bc] is null). *)
Definition dynamic_cast_generic (T : type_id) (bc : pointer) : option address :=
  match bc with
  | Some (generic_callable_handle T' f) => if (T' =? T)%N then Some f else None
  | _ => None
  end.

(** [dynamic_cast<object_callable_handle<T> *>(bc)]. *)
Definition dynamic_cast_object (T : type_id) (bc : pointer)
  : option (address * address) :=
  match bc with
  | Some (object_callable_handle T' o m) => if (T' =? T)%N then Some (o, m) else None
  | _ => None
  end.

(** The virtual [compare], by receiver. *)
Definition compare (this : base_callable) (bc : pointer) : bool :=
  match this with
  | generic_callable_handle T m_Func =>
      match dynamic_cast_generic T bc with
      | Some cc_m_Func => (cc_m_Func =? m_Func)%N
      | None => false
      end
  | object_callable_handle T m_Obj m_MemFunc =>
      match dynamic_cast_object T bc with
      | Some (oc_m_Obj, oc_m_MemFunc) =>
          (oc_m_Obj =? m_Obj)%N && (oc_m_MemFunc =? m_MemFunc)%N
      | None => false
      end
  end.

(** A member-function pointer is a value of a pointer-to-member type of
    class [T]: the class is part of it. *)
Definition member_pointer : Type := type_id * address.

Definition stored_object (h : base_callable) : option address :=
  match h with
  | object_callable_handle _ o _ => Some o
  | _ => None
  end.

Definition stored_member (h : base_callable) : option member_pointer :=
  match h with
  | object_callable_handle T _ m => Some (T, m)
  | _ => None
  end.

(** ** The standard algorithms the class calls *)

(** [std::find_if(begin, end, pred)] as the index of the first hit;
    [length v] stands for [end]. *)
Fixpoint std_find_if {A} (pred : A -> bool) (v : list A) : nat :=
  match v with
  | [] => 0
  | x :: v' => if pred x then 0 else S (std_find_if pred v')
  end.

(** [vector::erase(pos)]: [pos] must be dereferenceable. *)
Definition vector_erase {A} (v : list A) (pos : nat) : result (list A) :=
  if decide (pos < length v) then Done (delete pos v) else Undefined.

(** [vector::erase(first, last)]: any valid range, the empty one at [end]
    included. *)
Definition vector_erase_range {A} (v : list A) (first last : nat)
  : result (list A) :=
  if decide (first <= last <= length v)
  then Done (take first v ++ drop last v)
  else Undefined.

(** [std::remove_if] on a vector of [unique_ptr]: [front] are the slots
    already compacted, [junk] the slots between the write and the read
    position, [rest] what is still to be read.  Moving a kept element down
    overwrites the first junk slot and leaves a null behind. *)
Fixpoint remove_if_loop (pred : pointer -> bool) (front junk rest : list pointer)
  : list pointer * nat :=
  match rest with
  | [] => (front ++ junk, length front)
  | x :: rest' =>
      if pred x then remove_if_loop pred front (junk ++ [x]) rest'
      else match junk with
           | [] => remove_if_loop pred (front ++ [x]) [] rest'
           | _ :: junk' => remove_if_loop pred (front ++ [x]) (junk' ++ [None]) rest'
           end
  end.

Definition std_remove_if (pred : pointer -> bool) (v : list pointer)
  : list pointer * nat :=
  remove_if_loop pred [] [] v.

(** ** The dispatcher *)

Record event : Type := { m_Callables : list pointer }.

(** [attach(T &&callback)] *)
Definition attach (T : type_id) (callback : address) (e : event) : event :=
  {| m_Callables := m_Callables e ++ [Some (generic_callable_handle T callback)] |}.

(** [attach(T &obj, R (T::*memFn)(Args...))] *)
Definition attach_member (T : type_id) (obj memFn : address) (e : event) : event :=
  {| m_Callables := m_Callables e ++ [Some (object_callable_handle T obj memFn)] |}.

Definition detach_impl (temp : base_callable) (e : event) : result event :=
  let compPred := fun callable : pointer => compare temp callable in
  match vector_erase (m_Callables e) (std_find_if compPred (m_Callables e)) with
  | Done v => Done {| m_Callables := v |}
  | Undefined => Undefined
  end.

Definition detach_all_impl (temp : base_callable) (e : event) : result event :=
  let compPred := fun callable : pointer => compare temp callable in
  let '(v, new_end) := std_remove_if compPred (m_Callables e) in
  match vector_erase_range v new_end (length v) with
  | Done v' => Done {| m_Callables := v' |}
  | Undefined => Undefined
  end.

(** [detach(T &&callback)] *)
Definition detach (T : type_id) (callback : address) (e : event) : result event :=
  detach_impl (generic_callable_handle T callback) e.

(** [detach(T &obj, R (T::*memFn)(Args...))] *)
Definition detach_member (T : type_id) (obj memFn : address) (e : event)
  : result event :=
  detach_impl (object_callable_handle T obj memFn) e.

(** [detach_all(T &&callback)] *)
Definition detach_all (T : type_id) (callback : address) (e : event) : result event :=
  detach_all_impl (generic_callable_handle T callback) e.

(** [detach_all(T &obj, R (T::*memFn)(Args...))] *)
Definition detach_all_member (T : type_id) (obj memFn : address) (e : event)
  : result event :=
  detach_all_impl (object_callable_handle T obj memFn) e.

Definition clear (e : event) : event := {| m_Callables := [] |}.

(** The default-constructed dispatcher. *)
Definition new_event : event := {| m_Callables := [] |}.

(** ** Invocation *)

Section Invocation.
Context {R Args World : Type}.

(** What the attached code does: applied to the argument objects and the
    world it returns a value and leaves both possibly changed. *)
Record program : Type := {
  call_function : type_id -> address -> Args -> World -> R * (Args * World);
  call_member : type_id -> address -> address -> Args -> World -> R * (Args * World)
}.

(** The virtual [invoke], by receiver: [m_Func(args...)] and
    [(m_Obj->*m_MemFunc)(args...)]. *)
Definition invoke (prog : program) (this : base_callable) (args : Args) (w : World)
  : R * (Args * World) :=
  match this with
  | generic_callable_handle T m_Func => call_function prog T m_Func args w
  | object_callable_handle T m_Obj m_MemFunc =>
      call_member prog T m_MemFunc m_Obj args w
  end.

(** One entry per [callable->invoke(...)]: the record and the argument
    values it was handed. *)
Definition invocation : Type := base_callable * Args.

Record sweep : Type := {
  calls : list invocation;
  final : result (Args * World)
}.

(** The range-for of [operator()]. *)
Fixpoint for_each_invoke (prog : program) (callables : list pointer)
    (args : Args) (w : World) : sweep :=
  match callables with
  | [] => {| calls := []; final := Done (args, w) |}
  | None :: _ => {| calls := []; final := Undefined |}
  | Some callable :: rest =>
      let '(_, (args', w')) := invoke prog callable args w in
      let s := for_each_invoke prog rest args' w' in
      {| calls := (callable, args) :: calls s; final := final s |}
  end.

(** [operator()(Args &&...args)] *)
Definition operator_call (prog : program) (e : event) (args : Args) (w : World)
  : sweep :=
  for_each_invoke prog (m_Callables e) args w.

(** The records a sweep invoked, in the order it invoked them. *)
Definition invoked (s : sweep) : list base_callable := (calls s).*1.

(** The argument values the records were handed, in the same order. *)
Definition received (s : sweep) : list Args := (calls s).*2.

(** The effect of a callable with its return value dropped. *)
Definition effect (prog : program) (h : base_callable) (args : Args) (w : World)
  : Args * World :=
  snd (invoke prog h args w).
End Invocation.
Arguments program : clear implicits.
Arguments sweep : clear implicits.

(** ** Registry states *)

Global Instance base_callable_eq_dec : EqDecision base_callable.
Proof. solve_decision. Defined.

(** The class of a record: the handle template and its argument. *)
Inductive handle_class : Type :=
| generic_class (T : type_id)
| object_class (T : type_id).

Definition class_of (h : base_callable) : handle_class :=
  match h with
  | generic_callable_handle T _ => generic_class T
  | object_callable_handle T _ _ => object_class T
  end.

(** The identity test each [compare] makes once the cast has succeeded. *)
Definition identity_holds (this other : base_callable) : Prop :=
  match this, other with
  | generic_callable_handle _ f, generic_callable_handle _ f' => f' = f
  | object_callable_handle _ o m, object_callable_handle _ o' m' => o' = o /\ m' = m
  | _, _ => False
  end.

(** Every slot of the vector owns a record: no [unique_ptr] is null. *)
Definition well_formed (e : event) : Prop := Forall is_Some (m_Callables e).

(** The records the dispatcher owns, in storage order. *)
Definition records (e : event) : list base_callable := omap id (m_Callables e).

(** The slots a probe matches. *)
Definition matching (temp : base_callable) (e : event) : list pointer :=
  filter (fun p => compare temp p = true) (m_Callables e).

(** How the storage order of [e'] may differ from that of [e]: one slot
    more at the end, or slots taken out with the others left in order. *)
Definition order_kept (e e' : event) : Prop :=
  (exists p, m_Callables e' = m_Callables e ++ [p]) \/
  m_Callables e' `sublist_of` m_Callables e.

(** The dispatchers a program can hold: the default-constructed one and
    whatever the mutating operations make of it while their behaviour is
    defined. *)
Inductive reachable : event -> Prop :=
| reachable_new : reachable new_event
| reachable_attach T c e : reachable e -> reachable (attach T c e)
| reachable_attach_member T o m e : reachable e -> reachable (attach_member T o m e)
| reachable_detach T c e e' :
    reachable e -> detach T c e = Done e' -> reachable e'
| reachable_detach_member T o m e e' :
    reachable e -> detach_member T o m e = Done e' -> reachable e'
| reachable_detach_all T c e e' :
    reachable e -> detach_all T c e = Done e' -> reachable e'
| reachable_detach_all_member T o m e e' :
    reachable e -> detach_all_member T o m e = Done e' -> reachable e'
| reachable_clear e : reachable e -> reachable (clear e).

(** ** The public operations as one step function *)

Inductive operation (Args : Type) : Type :=
| Attach (T : type_id) (callback : address)
| AttachMember (T : type_id) (obj memFn : address)
| Detach (T : type_id) (callback : address)
| DetachMember (T : type_id) (obj memFn : address)
| DetachAll (T : type_id) (callback : address)
| DetachAllMember (T : type_id) (obj memFn : address)
| Clear
| Call (args : Args).
Arguments Attach {Args}.
Arguments AttachMember {Args}.
Arguments Detach {Args}.
Arguments DetachMember {Args}.
Arguments DetachAll {Args}.
Arguments DetachAllMember {Args}.
Arguments Clear {Args}.
Arguments Call {Args}.

Definition is_bookkeeping {Args} (op : operation Args) : bool :=
  match op with Call _ => false | _ => true end.

(** The probe a detaching operation builds. *)
Definition detach_probe {Args} (op : operation Args) : option base_callable :=
  match op with
  | Detach T c => Some (generic_callable_handle T c)
  | DetachMember T o m => Some (object_callable_handle T o m)
  | _ => None
  end.

Section Step.
Context {R Args World : Type}.

(** What one public call leaves behind: the invocations it made and, when
    its behaviour is defined, the dispatcher and the world after it. *)
Record outcome : Type := {
  ran : list (@invocation Args);
  after : result (event * World)
}.

Definition bookkeeping (r : result event) (w : World) : outcome :=
  {| ran := [];
     after := match r with Done e' => Done (e', w) | Undefined => Undefined end |}.

Definition perform (prog : program R Args World) (op : operation Args)
    (e : event) (w : World) : outcome :=
  match op with
  | Attach T c => bookkeeping (Done (attach T c e)) w
  | AttachMember T o m => bookkeeping (Done (attach_member T o m e)) w
  | Detach T c => bookkeeping (detach T c e) w
  | DetachMember T o m => bookkeeping (detach_member T o m e) w
  | DetachAll T c => bookkeeping (detach_all T c e) w
  | DetachAllMember T o m => bookkeeping (detach_all_member T o m e) w
  | Clear => bookkeeping (Done (clear e)) w
  | Call args =>
      let s := operator_call prog e args w in
      {| ran := calls s;
         after := match final s with
                  | Done (_, w') => Done (e, w')
                  | Undefined => Undefined
                  end |}
  end.

(** Every record of the sweep was handed the values the caller passed. *)
Definition hands_caller_values (s : sweep Args World) (args : Args) : Prop :=
  Forall (fun a => a = args) (received s).

(** How often a sweep invoked a record. *)
Definition times_invoked (h : base_callable) (s : sweep Args World) : nat :=
  length (filter (fun x => x = h) (invoked s)).
End Step.
Arguments outcome : clear implicits.

(** Attaching a list of plain callables, first to last. *)
Definition attach_each (cs : list (type_id * address)) (e : event) : event :=
  foldl (fun e c => attach c.1 c.2 e) e cs.

(** ** Overloads and sequences of calls *)

(** Sequencing two calls: the second runs on what the first left, and an
    undefined call leaves nothing to run on. *)
Definition and_then {A B} (r : result A) (f : A -> result B) : result B :=
  match r with Done a => f a | Undefined => Undefined end.

(** [attach], [detach] and [detach_all] as overload resolution picks them:
    the plain-callable overload for a callable of type [T], the
    member-function overload for an object and a member-function pointer.
    The argument is given as the record the overload builds from it. *)
Definition attach_record (h : base_callable) (e : event) : event :=
  match h with
  | generic_callable_handle T callback => attach T callback e
  | object_callable_handle T obj memFn => attach_member T obj memFn e
  end.

Definition detach_record (h : base_callable) (e : event) : result event :=
  match h with
  | generic_callable_handle T callback => detach T callback e
  | object_callable_handle T obj memFn => detach_member T obj memFn e
  end.

Definition detach_all_record (h : base_callable) (e : event) : result event :=
  match h with
  | generic_callable_handle T callback => detach_all T callback e
  | object_callable_handle T obj memFn => detach_all_member T obj memFn e
  end.

(** [k] calls of [attach] with the same argument. *)
Definition attach_times (k : nat) (h : base_callable) (e : event) : event :=
  Nat.iter k (attach_record h) e.

(** [k] calls of [detach] with the same argument, one after the other. *)
Fixpoint detach_times (k : nat) (h : base_callable) (e : event) : result event :=
  match k with
  | 0 => Done e
  | S k' => and_then (detach_record h e) (detach_times k' h)
  end.

(** [detach_all] called once for each record of a list, first to last. *)
Definition detach_all_each (hs : list base_callable) (e : event) : result event :=
  foldl (fun r h => and_then r (detach_all_record h)) (Done e) hs.

(** The effects of a list of records, applied first to last to the
    argument objects and the world. *)
Definition run_effects {R Args World : Type} (prog : program R Args World)
    (hs : list base_callable) (st : Args * World) : Args * World :=
  foldl (fun st h => effect prog h st.1 st.2) st hs.

(** In the sweep over [hs] started on [st], each record in a place below
    [i] handed the argument objects back as it had received them. *)
Definition unmodified_before {R Args World : Type} (prog : program R Args World)
    (hs : list base_callable) (st : Args * World) (i : nat) : Prop :=
  forall j h, j < i -> hs !! j = Some h ->
    (effect prog h (run_effects prog (take j hs) st).1
       (run_effects prog (take j hs) st).2).1 =
    (run_effects prog (take j hs) st).1.

(** ** The member functions as computations that can call into records *)

(** The probe a removing operation builds, [detach] or [detach_all]. *)
Definition removal_probe {Args} (op : operation Args) : option base_callable :=
  match op with
  | Detach T c | DetachAll T c => Some (generic_callable_handle T c)
  | DetachMember T o m | DetachAllMember T o m => Some (object_callable_handle T o m)
  | _ => None
  end.

Section Computations.
Context {R Args World : Type}.

(** The calls a member function of [event] can make on a record: the two
    virtual functions of [base_callable]. *)
Inductive virtual_call : Type :=
| compare_call (this : base_callable) (bc : pointer)
| invoke_call (this : base_callable) (args : Args).

Definition is_invoke_call (c : virtual_call) : bool :=
  match c with invoke_call _ _ => true | compare_call _ _ => false end.

(** A computation has the attached code and the world at hand; it leaves
    the virtual calls it made, in order, and - while its behaviour is
    defined - a value and the world after it. *)
Definition comp (X : Type) : Type :=
  program R Args World -> World -> list virtual_call * result (X * World).

Definition ret {X} (x : X) : comp X := fun _ w => ([], Done (x, w)).

Definition undefined {X} : comp X := fun _ _ => ([], Undefined).

Definition bind {X Y} (c : comp X) (f : X -> comp Y) : comp Y :=
  fun prog w =>
    match c prog w with
    | (t, Done (x, w')) => let '(t', r) := f x prog w' in (t ++ t', r)
    | (t, Undefined) => (t, Undefined)
    end.

(** [this.compare(bc)] *)
Definition call_compare (this : base_callable) (bc : pointer) : comp bool :=
  fun _ w => ([compare_call this bc], Done (compare this bc, w)).

(** [this->invoke(args...)]: runs the attached code on the argument
    objects and the world. *)
Definition call_invoke (this : base_callable) (args : Args) : comp (R * Args) :=
  fun prog w =>
    let '(r, (args', w')) := invoke prog this args w in
    ([invoke_call this args], Done ((r, args'), w')).

(** [std::find_if] with the predicate [compPred] of [detach_impl]: one
    [temp.compare(callable.get())] per slot up to the first hit. *)
Fixpoint find_if_c (temp : base_callable) (v : list pointer) : comp nat :=
  match v with
  | [] => ret 0
  | callable :: v' =>
      bind (call_compare temp callable) (fun found =>
        if found then ret 0
        else bind (find_if_c temp v') (fun pos => ret (S pos)))
  end.

(** [std::remove_if] with the predicate [compPred] of [detach_all_impl]. *)
Fixpoint remove_if_loop_c (temp : base_callable) (front junk rest : list pointer)
  : comp (list pointer * nat) :=
  match rest with
  | [] => ret (front ++ junk, length front)
  | callable :: rest' =>
      bind (call_compare temp callable) (fun found =>
        if found then remove_if_loop_c temp front (junk ++ [callable]) rest'
        else match junk with
             | [] => remove_if_loop_c temp (front ++ [callable]) [] rest'
             | _ :: junk' =>
                 remove_if_loop_c temp (front ++ [callable]) (junk' ++ [None]) rest'
             end)
  end.

Definition detach_impl_c (temp : base_callable) (e : event) : comp event :=
  bind (find_if_c temp (m_Callables e)) (fun pos =>
    match vector_erase (m_Callables e) pos with
    | Done v => ret {| m_Callables := v |}
    | Undefined => undefined
    end).

Definition detach_all_impl_c (temp : base_callable) (e : event) : comp event :=
  bind (remove_if_loop_c temp [] [] (m_Callables e)) (fun '(v, new_end) =>
    match vector_erase_range v new_end (length v) with
    | Done v' => ret {| m_Callables := v' |}
    | Undefined => undefined
    end).

(** The range-for of [operator()]. *)
Fixpoint for_each_invoke_c (callables : list pointer) (args : Args) : comp Args :=
  match callables with
  | [] => ret args
  | None :: _ => undefined
  | Some callable :: rest =>
      bind (call_invoke callable args) (fun '(_, args') =>
        for_each_invoke_c rest args')
  end.

(** The public member functions, by operation. *)
Definition perform_c (op : operation Args) (e : event) : comp event :=
  match op with
  | Attach T callback =>
      ret {| m_Callables :=
               m_Callables e ++ [Some (generic_callable_handle T callback)] |}
  | AttachMember T obj memFn =>
      ret {| m_Callables :=
               m_Callables e ++ [Some (object_callable_handle T obj memFn)] |}
  | Detach T callback => detach_impl_c (generic_callable_handle T callback) e
  | DetachMember T obj memFn => detach_impl_c (object_callable_handle T obj memFn) e
  | DetachAll T callback => detach_all_impl_c (generic_callable_handle T callback) e
  | DetachAllMember T obj memFn =>
      detach_all_impl_c (object_callable_handle T obj memFn) e
  | Clear => ret {| m_Callables := [] |}
  | Call args => bind (for_each_invoke_c (m_Callables e) args) (fun _ => ret e)
  end.
End Computations.
Arguments virtual_call : clear implicits.

(** ** Concrete dispatchers *)

Module Scenario.

(** [event<void(int &)>] whose plain callables add one to their argument
    and whose member functions read it; each logs the address it ran at. *)
Definition counting : program unit Z (list address) :=
  {| call_function := fun _ f x log => (tt, (x + 1, log ++ [f]))%Z;
     call_member := fun _ _ o x log => (tt, (x, log ++ [o])) |}.

(** The same signature with callables that only log. *)
Definition logging : program nat Z (list address) :=
  {| call_function := fun _ f x log => (0, (x, log ++ [f]));
     call_member := fun _ m o x log => (1, (x, log ++ [o])) |}.

(** [event<void(std::unique_ptr<int>)>] whose callables take the pointer by
    value: each logs what it was given and leaves the caller's pointer
    moved-from, that is null. *)
Definition consuming : program unit (option Z) (list (option Z)) :=
  {| call_function := fun _ _ p log => (tt, (None, log ++ [p]));
     call_member := fun _ _ _ p log => (tt, (None, log ++ [p])) |}.

(** [event<void(int &)>] whose callables add one to an argument above 100
    and leave any other as it is. *)
Definition guarded : program unit Z (list address) :=
  {| call_function :=
       fun _ f x log => (tt, (if (100 <? x)%Z then x + 1 else x, log ++ [f]))%Z;
     call_member :=
       fun _ _ o x log => (tt, (if (100 <? x)%Z then x + 1 else x, log ++ [o]))%Z |}.

Definition L1 : address := 1%N.
Definition L2 : address := 2%N.
Definition L3 : address := 3%N.
Definition fn_ptr : type_id := 10%N.
Definition fn_ref : type_id := 11%N.
Definition Counter : type_id := 20%N.
Definition objA : address := 100%N.
Definition objB : address := 200%N.
Definition increment : address := 7%N.

Definition three : event :=
  attach fn_ptr L3 (attach fn_ptr L2 (attach fn_ptr L1 new_event)).

Definition twice : event := attach fn_ptr L1 (attach fn_ptr L1 new_event).

Definition two_objects : event :=
  attach_member Counter objB increment (attach_member Counter objA increment new_event).

End Scenario.
Import Scenario.


(** * Properties *)

(** ** The standard algorithms *)

Section Algorithms.
Context {A : Type} (pred : A -> bool).

Lemma std_find_if_le (v : list A) : std_find_if pred v <= length v.
Proof.
  induction v as [|x v IH]; simpl; [lia|].
  destruct (pred x); simpl; lia.
Qed.

Lemma std_find_if_none (v : list A) :
  Forall (fun x => pred x = false) v -> std_find_if pred v = length v.
Proof.
  induction 1 as [|x v Hx _ IH]; simpl; [done|].
  by rewrite Hx, IH.
Qed.

Lemma std_find_if_first (before after : list A) (r : A) :
  Forall (fun x => pred x = false) before -> pred r = true ->
  std_find_if pred (before ++ r :: after) = length before.
Proof.
  intros Hb Hr. induction Hb as [|x v Hx _ IH]; simpl.
  - by rewrite Hr.
  - by rewrite Hx, IH.
Qed.

Lemma first_match_split (v : list A) :
  Exists (fun x => pred x = true) v ->
  exists before r after,
    v = before ++ r :: after /\
    Forall (fun x => pred x = false) before /\ pred r = true.
Proof.
  induction v as [|x v IH]; intros Hex; [by inversion Hex|].
  destruct (pred x) eqn:Hx.
  - exists [], x, v. by repeat split.
  - inversion Hex as [? ? Hhd|? ? Htl]; subst; [congruence|].
    destruct (IH Htl) as (before & r & after & -> & Hb & Hr).
    exists (x :: before), r, after. repeat split; [|done]. by constructor.
Qed.

Lemma match_or_none (v : list A) :
  Exists (fun x => pred x = true) v \/ Forall (fun x => pred x = false) v.
Proof.
  induction v as [|x v [IH|IH]]; [by right|by left; right|].
  destruct (pred x) eqn:Hx; [by left; left|by right; constructor].
Qed.

Lemma vector_erase_found (before after : list A) (r : A) :
  vector_erase (before ++ r :: after) (length before) = Done (before ++ after).
Proof.
  unfold vector_erase. rewrite length_app. simpl.
  destruct (decide _) as [_|Hn]; [|lia].
  by rewrite delete_middle.
Qed.

Lemma vector_erase_end (v : list A) : vector_erase v (length v) = Undefined.
Proof. unfold vector_erase. destruct (decide _); [lia|done]. Qed.

Lemma vector_erase_range_tail (v : list A) (n : nat) :
  n <= length v -> vector_erase_range v n (length v) = Done (take n v).
Proof.
  intros Hn. unfold vector_erase_range.
  destruct (decide _) as [_|Hbad]; [|lia].
  by rewrite drop_all, app_nil_r.
Qed.
End Algorithms.

(** The loop keeps, in its first [n] slots, what it had compacted so far
    followed by the unread elements the predicate rejects, and never
    changes the size of the vector. *)
Lemma remove_if_loop_spec (pred : pointer -> bool) (rest front junk : list pointer) :
  let keep := filter (fun p => pred p = false) rest in
  let out := remove_if_loop pred front junk rest in
  out.2 = length (front ++ keep) /\
  take out.2 out.1 = front ++ keep /\
  length out.1 = length front + length junk + length rest.
Proof.
  revert front junk. induction rest as [|x rest IH]; intros front junk; simpl.
  - rewrite app_nil_r. split_and!; [done| |rewrite length_app; lia].
    by rewrite take_app_length.
  - destruct (pred x) eqn:Hx.
    + rewrite filter_cons_False by congruence.
      destruct (IH front (junk ++ [x])) as (H1 & H2 & H3).
      split_and!; [done..|]. rewrite H3, length_app. simpl. lia.
    + rewrite filter_cons_True by done.
      replace (front ++ x :: filter (fun p => pred p = false) rest)
        with ((front ++ [x]) ++ filter (fun p => pred p = false) rest)
        by (by rewrite <- app_assoc).
      destruct junk as [|j junk].
      * destruct (IH (front ++ [x]) []) as (H1 & H2 & H3).
        split_and!; [done..|]. rewrite H3, length_app. simpl. lia.
      * destruct (IH (front ++ [x]) (junk ++ [None])) as (H1 & H2 & H3).
        split_and!; [done..|]. rewrite H3, !length_app. simpl. lia.
Qed.

Lemma std_remove_if_spec (pred : pointer -> bool) (v : list pointer) :
  let out := std_remove_if pred v in
  take out.2 out.1 = filter (fun p => pred p = false) v /\
  out.2 <= length out.1.
Proof.
  destruct (remove_if_loop_spec pred v [] []) as (H1 & H2 & H3).
  simpl in *. unfold std_remove_if. split; [done|].
  rewrite H1, H3. apply length_filter.
Qed.

(** ** The operations on the vector *)

Lemma detach_all_impl_filter (temp : base_callable) (e : event) :
  detach_all_impl temp e =
  Done {| m_Callables := filter (fun p => compare temp p = false) (m_Callables e) |}.
Proof.
  unfold detach_all_impl.
  destruct (std_remove_if_spec (fun p => compare temp p) (m_Callables e)) as [Hk Hn].
  destruct (std_remove_if _ _) as [v n]. simpl in *.
  by rewrite vector_erase_range_tail, Hk.
Qed.

Lemma detach_impl_found (temp : base_callable) (before after : list pointer)
    (r : pointer) :
  Forall (fun p => compare temp p = false) before -> compare temp r = true ->
  detach_impl temp {| m_Callables := before ++ r :: after |} =
  Done {| m_Callables := before ++ after |}.
Proof.
  intros Hb Hr. unfold detach_impl. simpl.
  rewrite (std_find_if_first (fun p => compare temp p)) by done.
  by rewrite vector_erase_found.
Qed.

Lemma detach_impl_not_found (temp : base_callable) (e : event) :
  Forall (fun p => compare temp p = false) (m_Callables e) ->
  detach_impl temp e = Undefined.
Proof.
  intros Hno. unfold detach_impl.
  rewrite (std_find_if_none (fun p => compare temp p)) by done.
  by rewrite vector_erase_end.
Qed.

Lemma compare_null (temp : base_callable) : compare temp None = false.
Proof. by destruct temp. Qed.

Lemma compare_true_iff (this other : base_callable) :
  compare this (Some other) = true <-> other = this.
Proof.
  destruct this as [T f|T o m], other as [T' f'|T' o' m']; simpl;
    try (split; [discriminate|congruence]).
  - destruct (N.eqb_spec T' T) as [->|Hne]; simpl.
    + rewrite N.eqb_eq. split; congruence.
    + split; [discriminate|congruence].
  - destruct (N.eqb_spec T' T) as [->|Hne]; simpl.
    + rewrite andb_true_iff, !N.eqb_eq. split; [intros [-> ->]; done|].
      intros [= -> ->]. done.
    + split; [discriminate|congruence].
Qed.

Lemma compare_false_iff (this other : base_callable) :
  compare this (Some other) = false <-> other <> this.
Proof.
  rewrite <- compare_true_iff. destruct (compare this (Some other)); split; congruence.
Qed.

Lemma filter_all {A} (P : A -> Prop) `{!forall x, Decision (P x)} (l : list A) :
  Forall P l -> filter P l = l.
Proof.
  induction 1 as [|x l Hx _ IH]; [done|].
  by rewrite filter_cons_True, IH.
Qed.

Lemma event_eta (e : event) : {| m_Callables := m_Callables e |} = e.
Proof. by destruct e. Qed.

Lemma well_formed_attach (T : type_id) (c : address) (e : event) :
  well_formed e -> well_formed (attach T c e).
Proof.
  intros He. apply Forall_app. split; [done|].
  constructor; [by eexists|constructor].
Qed.

Lemma well_formed_attach_member (T : type_id) (o m : address) (e : event) :
  well_formed e -> well_formed (attach_member T o m e).
Proof.
  intros He. apply Forall_app. split; [done|].
  constructor; [by eexists|constructor].
Qed.

Lemma well_formed_sublist (e e' : event) :
  m_Callables e' `sublist_of` m_Callables e -> well_formed e -> well_formed e'.
Proof.
  intros Hsub He. apply Forall_forall. intros p Hp.
  eapply (proj1 (Forall_forall _ _) He), elem_of_sublist; eauto.
Qed.

Lemma records_attach (T : type_id) (c : address) (e : event) :
  records (attach T c e) = records e ++ [generic_callable_handle T c].
Proof. unfold records. simpl. by rewrite omap_app. Qed.

Lemma records_attach_member (T : type_id) (o m : address) (e : event) :
  records (attach_member T o m e) = records e ++ [object_callable_handle T o m].
Proof. unfold records. simpl. by rewrite omap_app. Qed.

Lemma attach_each_spec (cs : list (type_id * address)) (e : event) :
  (well_formed e -> well_formed (attach_each cs e)) /\
  records (attach_each cs e) =
  records e ++ ((fun c => generic_callable_handle c.1 c.2) <$> cs).
Proof.
  revert e. induction cs as [|[T c] cs IH]; intros e.
  - simpl. by rewrite app_nil_r.
  - change (attach_each ((T, c) :: cs) e) with (attach_each cs (attach T c e)).
    destruct (IH (attach T c e)) as [Hwf Hrec]. split.
    + intros He. by apply Hwf, well_formed_attach.
    + rewrite Hrec, records_attach. simpl. by rewrite <- app_assoc.
Qed.

(** ** Sweeps *)

Section Sweeps.
Context {R Args World : Type}.
Implicit Types (prog : program R Args World) (v : list pointer).
Implicit Types (args : Args) (w : World).

(** On a vector without null slots the loop runs to its end and invokes
    the records slot by slot. *)
Lemma for_each_invoke_all prog v args w :
  Forall is_Some v ->
  invoked (for_each_invoke prog v args w) = omap id v /\
  exists args' w', final (for_each_invoke prog v args w) = Done (args', w').
Proof.
  intros Hv. revert args w.
  induction Hv as [|p v [h ->] _ IH]; intros args w; simpl.
  - split; [done|]. by eexists _, _.
  - destruct (invoke prog h args w) as [r [args' w']]. simpl.
    destruct (IH args' w') as [Hi Hf]. split; [|done].
    unfold invoked in *. simpl. f_equal. exact Hi.
Qed.

(** The sweep depends on the callables through their effects only. *)
Lemma for_each_invoke_effect {R' : Type} prog (prog' : program R' Args World)
    v args w :
  (forall h a w0, effect prog' h a w0 = effect prog h a w0) ->
  for_each_invoke prog' v args w = for_each_invoke prog v args w.
Proof.
  intros Heff. revert args w.
  induction v as [|[h|] v IH]; intros args w; simpl; [done| |done].
  specialize (Heff h args w). unfold effect in Heff.
  destruct (invoke prog' h args w) as [r' [a' w']].
  destruct (invoke prog h args w) as [r [a0 w0]].
  simpl in Heff. injection Heff as -> ->. by rewrite IH.
Qed.

Lemma run_effects_cons prog (h : base_callable) (hs : list base_callable)
    (st : Args * World) :
  run_effects prog (h :: hs) st = run_effects prog hs (effect prog h st.1 st.2).
Proof. done. Qed.

Lemma for_each_invoke_final prog v args w :
  Forall is_Some v ->
  final (for_each_invoke prog v args w) = Done (run_effects prog (omap id v) (args, w)).
Proof.
  intros Hv. revert args w.
  induction Hv as [|p v [h ->] _ IH]; intros args w; [done|].
  change (omap id (Some h :: v)) with (h :: omap id v).
  rewrite (run_effects_cons prog h (omap id v) (args, w)). unfold effect. simpl.
  destruct (invoke prog h args w) as [r [args' w']]. simpl. apply IH.
Qed.

Lemma for_each_invoke_lookup prog v args w (i : nat) (h : base_callable) :
  Forall is_Some v -> omap id v !! i = Some h ->
  calls (for_each_invoke prog v args w) !! i =
  Some (h, (run_effects prog (take i (omap id v)) (args, w)).1).
Proof.
  intros Hv. revert i args w.
  induction Hv as [|p v [h0 ->] _ IH]; intros i args w; [done|].
  change (omap id (Some h0 :: v)) with (h0 :: omap id v).
  destruct i as [|i].
  - simpl. intros [= ->]. by destruct (invoke prog h args w) as [r [args' w']].
  - intros Hi. change (take (S i) (h0 :: omap id v)) with (h0 :: take i (omap id v)).
    rewrite (run_effects_cons prog h0 (take i (omap id v)) (args, w)).
    unfold effect. simpl in *.
    destruct (invoke prog h0 args w) as [r [args' w']]. simpl. by apply IH.
Qed.

Lemma for_each_invoke_app prog v1 v2 args w :
  for_each_invoke prog (v1 ++ v2) args w =
  match final (for_each_invoke prog v1 args w) with
  | Done (args', w') =>
      {| calls := calls (for_each_invoke prog v1 args w) ++
                  calls (for_each_invoke prog v2 args' w');
         final := final (for_each_invoke prog v2 args' w') |}
  | Undefined => for_each_invoke prog v1 args w
  end.
Proof.
  revert args w. induction v1 as [|[h|] v1 IH]; intros args w; simpl.
  - by destruct (for_each_invoke prog v2 args w).
  - destruct (invoke prog h args w) as [r [args' w']]. simpl. rewrite IH.
    destruct (final (for_each_invoke prog v1 args' w')) as [[a0 w0]|] eqn:E;
      simpl; by rewrite ?E.
  - done.
Qed.

Lemma times_invoked_records prog (e : event) args w (h : base_callable) :
  well_formed e ->
  times_invoked h (operator_call prog e args w) =
  length (filter (fun x => x = h) (records e)).
Proof.
  intros He. unfold times_invoked, operator_call, records.
  by destruct (for_each_invoke_all prog (m_Callables e) args w He) as [-> _].
Qed.
End Sweeps.

(** ** Invoking what was attached *)

(** C1: on any dispatcher, after attaching N plain callables one call of
    [operator()] applies the records in storage order - those the
    dispatcher already held, then the N new ones in the order they were
    attached - each one once: the invocations it makes are these records in
    this order, the record in place [i] is applied to the arguments as the
    records before it left them, and the sweep ends in the arguments and
    the world that applying every record's effect once, first to last,
    produces.  What the records return is dropped: the sweep is the same
    for any callables with the same effects. *)
Theorem invoke_all_in_attachment_order {R Args World : Type}
    (prog : program R Args World) (cs : list (type_id * address)) (e : event)
    (args : Args) (w : World) :
  well_formed e ->
  let s := operator_call prog (attach_each cs e) args w in
  let hs := records e ++ ((fun c => generic_callable_handle c.1 c.2) <$> cs) in
  invoked s = hs /\
  final s = Done (run_effects prog hs (args, w)) /\
  (forall i h, hs !! i = Some h ->
     calls s !! i = Some (h, (run_effects prog (take i hs) (args, w)).1)) /\
  (forall (R' : Type) (prog' : program R' Args World),
     (forall h a w0, effect prog' h a w0 = effect prog h a w0) ->
     operator_call prog' (attach_each cs e) args w = s).
Proof.
  intros He s hs. subst s hs. unfold operator_call.
  destruct (attach_each_spec cs e) as [Hwf Hrec]. specialize (Hwf He).
  destruct (for_each_invoke_all prog _ args w Hwf) as [Hi _].
  rewrite <- Hrec. split_and!.
  - exact Hi.
  - by apply (for_each_invoke_final prog).
  - intros i h. by apply (for_each_invoke_lookup prog).
  - intros R' prog' Heff. by apply for_each_invoke_effect.
Qed.

Lemma invoke_all_in_attachment_order_witness :
  well_formed (attach fn_ref L3 new_event) /\
  invoked (operator_call counting
             (attach_each [(fn_ptr, L1); (fn_ptr, L2); (fn_ptr, L1)]
                (attach fn_ref L3 new_event)) 0%Z []) =
  [generic_callable_handle fn_ref L3;
   generic_callable_handle fn_ptr L1;
   generic_callable_handle fn_ptr L2;
   generic_callable_handle fn_ptr L1] /\
  final (operator_call counting
           (attach_each [(fn_ptr, L1); (fn_ptr, L2); (fn_ptr, L1)]
              (attach fn_ref L3 new_event)) 0%Z []) =
  Done (4%Z, [L3; L1; L2; L1]).
Proof.
  assert (Hwf : well_formed (attach fn_ref L3 new_event))
    by (apply well_formed_attach; constructor).
  split; [exact Hwf|].
  destruct (invoke_all_in_attachment_order counting
              [(fn_ptr, L1); (fn_ptr, L2); (fn_ptr, L1)]
              (attach fn_ref L3 new_event) 0%Z [] Hwf) as (Hi & Hf & _).
  split; [exact Hi|exact Hf].
Defined.

(** ** Detaching *)

(** C2: when some slot matches the probe, [detach_impl] - the body of both
    [detach] overloads - erases the first matching slot and nothing else:
    the slots before it (none of which matches) and the slots after it
    (matching or not) stay, in their order. *)
Theorem detach_removes_earliest_match (temp : base_callable) (e : event) :
  Exists (fun p => compare temp p = true) (m_Callables e) ->
  exists before r after,
    m_Callables e = before ++ r :: after /\
    Forall (fun p => compare temp p = false) before /\
    compare temp r = true /\
    detach_impl temp e = Done {| m_Callables := before ++ after |}.
Proof.
  intros Hex.
  destruct (first_match_split (fun p => compare temp p) _ Hex)
    as (before & r & after & Hv & Hb & Hr).
  exists before, r, after. split_and!; [done..|].
  rewrite <- (event_eta e), Hv. by apply detach_impl_found.
Qed.

Lemma detach_removes_earliest_match_witness :
  Exists (fun p => compare (generic_callable_handle fn_ptr L1) p = true)
    (m_Callables (attach fn_ptr L1 three)) /\
  exists before r after,
    m_Callables (attach fn_ptr L1 three) = before ++ r :: after /\
    Forall (fun p => compare (generic_callable_handle fn_ptr L1) p = false)
      before /\
    compare (generic_callable_handle fn_ptr L1) r = true /\
    detach fn_ptr L1 (attach fn_ptr L1 three) =
    Done {| m_Callables := before ++ after |}.
Proof.
  assert (Hex : Exists
            (fun p => compare (generic_callable_handle fn_ptr L1) p = true)
            (m_Callables (attach fn_ptr L1 three)))
    by (apply Exists_cons_hd; reflexivity).
  split; [exact Hex|].
  exact (detach_removes_earliest_match _ _ Hex).
Defined.

(** C3: with no slot matching the probe (the empty vector included),
    [detach_all_impl] returns the vector as it was, while [detach_impl]
    hands [end()] to [vector::erase], which is undefined. *)
Theorem unmatched_detach_is_undefined (temp : base_callable) (e : event) :
  Forall (fun p => compare temp p = false) (m_Callables e) ->
  detach_all_impl temp e = Done e /\ detach_impl temp e = Undefined.
Proof.
  intros Hno. split.
  - rewrite detach_all_impl_filter, filter_all by done. by rewrite event_eta.
  - by apply detach_impl_not_found.
Qed.

Lemma unmatched_detach_is_undefined_witness :
  Forall (fun p => compare (generic_callable_handle fn_ptr L2) p = false)
    (m_Callables (attach fn_ptr L1 new_event)) /\
  detach fn_ptr L2 (attach fn_ptr L1 new_event) = Undefined /\
  detach fn_ptr L2 new_event = Undefined.
Proof.
  assert (Hno : Forall
            (fun p => compare (generic_callable_handle fn_ptr L2) p = false)
            (m_Callables (attach fn_ptr L1 new_event)))
    by (repeat constructor).
  split; [exact Hno|]. split.
  - exact (proj2 (unmatched_detach_is_undefined _ _ Hno)).
  - exact (proj2 (unmatched_detach_is_undefined
                    (generic_callable_handle fn_ptr L2) new_event
                    (Forall_nil_2 _))).
Defined.

(** C4: [detach_all_impl] - the body of both [detach_all] overloads - is
    always defined and leaves exactly the slots the probe does not match,
    in the order they had. *)
Theorem detach_all_removes_every_match (temp : base_callable) (e : event) :
  exists e',
    detach_all_impl temp e = Done e' /\
    m_Callables e' = filter (fun p => compare temp p = false) (m_Callables e) /\
    (forall p, p ∈ m_Callables e' <-> p ∈ m_Callables e /\ compare temp p = false) /\
    m_Callables e' `sublist_of` m_Callables e.
Proof.
  eexists. split; [apply detach_all_impl_filter|]. simpl. split_and!; [done| |].
  - intros p. rewrite list_elem_of_filter. tauto.
  - apply sublist_filter.
Qed.

(** ** Identity of records *)

(** C5: a plain-callable record and a bound-method record never compare
    equal, whichever of them is the receiver; [compare] answers true only
    for a record of the receiver's own class whose stored identity equals
    the receiver's. *)
Theorem compare_needs_same_class (this other : base_callable) :
  (is_generic this <> is_generic other -> compare this (Some other) = false) /\
  (compare this (Some other) = true ->
   class_of other = class_of this /\ identity_holds this other).
Proof.
  split.
  - destruct this, other; simpl; try done; intros Hne; by destruct Hne.
  - intros Hc. apply compare_true_iff in Hc as ->. by destruct this.
Qed.

Lemma compare_needs_same_class_witness :
  (compare (generic_callable_handle Counter increment)
     (Some (object_callable_handle Counter objA increment)) = false /\
   compare (object_callable_handle Counter objA increment)
     (Some (generic_callable_handle Counter increment)) = false) /\
  identity_holds (object_callable_handle Counter objA increment)
    (object_callable_handle Counter objA increment).
Proof.
  split; [split|].
  - apply (proj1 (compare_needs_same_class (generic_callable_handle Counter increment)
                    (object_callable_handle Counter objA increment))).
    simpl. discriminate.
  - apply (proj1 (compare_needs_same_class (object_callable_handle Counter objA increment)
                    (generic_callable_handle Counter increment))).
    simpl. discriminate.
  - apply (proj2 (compare_needs_same_class (object_callable_handle Counter objA increment)
                    (object_callable_handle Counter objA increment))).
    reflexivity.
Defined.

(** ** What a detach leaves in place *)

(** A defined [detach_impl] found its probe: it split the vector at the
    first matching slot. *)
Lemma detach_impl_done (temp : base_callable) (e e' : event) :
  detach_impl temp e = Done e' ->
  exists before r after,
    m_Callables e = before ++ r :: after /\
    Forall (fun p => compare temp p = false) before /\
    compare temp r = true /\
    m_Callables e' = before ++ after.
Proof.
  intros Hd.
  destruct (match_or_none (fun p => compare temp p) (m_Callables e)) as [Hex|Hno].
  - destruct (first_match_split _ _ Hex) as (before & r & after & Hv & Hb & Hr).
    exists before, r, after. split_and!; [done..|].
    rewrite <- (event_eta e), Hv, detach_impl_found in Hd by done.
    by injection Hd as <-.
  - by rewrite detach_impl_not_found in Hd.
Qed.

Lemma detach_impl_defined (temp : base_callable) (e : event) :
  Exists (fun p => compare temp p = true) (m_Callables e) ->
  exists e', detach_impl temp e = Done e'.
Proof.
  intros (before & r & after & Hv & Hb & Hr)%first_match_split.
  eexists. rewrite <- (event_eta e), Hv. by apply detach_impl_found.
Qed.

Lemma detach_impl_sublist (temp : base_callable) (e e' : event) :
  detach_impl temp e = Done e' -> m_Callables e' `sublist_of` m_Callables e.
Proof.
  intros (before & r & after & -> & _ & _ & ->)%detach_impl_done.
  apply sublist_app; [done|]. by apply sublist_cons.
Qed.

(** The slots another probe matches are not touched. *)
Lemma detach_impl_matching (temp other : base_callable) (e e' : event) :
  other <> temp -> detach_impl temp e = Done e' ->
  matching other e' = matching other e.
Proof.
  intros Hne (before & r & after & Hv & _ & Hr & Hv')%detach_impl_done.
  unfold matching. rewrite Hv, Hv', !filter_app. f_equal.
  rewrite filter_cons_False; [done|].
  destruct r as [h|]; [|by rewrite compare_null in Hr].
  apply compare_true_iff in Hr as ->.
  apply not_true_iff_false, compare_false_iff. congruence.
Qed.

Lemma matching_invoked {R Args World : Type} (prog : program R Args World)
    (h : base_callable) (e : event) (args : Args) (w : World) :
  well_formed e -> Some h ∈ matching h e ->
  h ∈ invoked (operator_call prog e args w).
Proof.
  intros He [_ Hin]%list_elem_of_filter. unfold operator_call.
  destruct (for_each_invoke_all prog _ args w He) as [-> _].
  apply list_elem_of_omap. by exists (Some h).
Qed.

(** C6: two bound-method records compare equal exactly when they store the
    same object address and the same member-function pointer (a pointer to
    a member of class [T], so equal pointers are pointers of one class).
    Hence, on any dispatcher, once [(objA, f)] and [(objB, f)] are attached
    for distinct objects, detaching either binding is defined, leaves every
    slot of the other binding in place, and the next [operator()] still
    invokes the other. *)
Theorem bound_method_identity {R Args World : Type} (prog : program R Args World)
    (T : type_id) (f objA objB : address) (e : event) (args : Args) (w : World) :
  well_formed e -> objA <> objB ->
  let A := object_callable_handle T objA f in
  let B := object_callable_handle T objB f in
  let both := attach_member T objB f (attach_member T objA f e) in
  (forall a b : base_callable,
     is_object a = true -> is_object b = true ->
     (compare a (Some b) = true <->
      stored_object b = stored_object a /\ stored_member b = stored_member a)) /\
  (exists e', detach_member T objA f both = Done e' /\
     matching B e' = matching B both /\
     B ∈ invoked (operator_call prog e' args w)) /\
  (exists e', detach_member T objB f both = Done e' /\
     matching A e' = matching A both /\
     A ∈ invoked (operator_call prog e' args w)).
Proof.
  intros He Hne A B both.
  assert (Hwf : well_formed both)
    by by apply well_formed_attach_member, well_formed_attach_member.
  assert (HAB : A <> B) by (unfold A, B; congruence).
  assert (Hself : forall h, compare h (Some h) = true)
    by (intros h; by apply compare_true_iff).
  assert (Hin : forall h, Some h ∈ m_Callables both -> Some h ∈ matching h both)
    by (intros h Hh; apply list_elem_of_filter; by split).
  assert (HA : Some A ∈ m_Callables both)
    by (simpl; rewrite !elem_of_app, !list_elem_of_singleton; auto).
  assert (HB : Some B ∈ m_Callables both)
    by (simpl; rewrite !elem_of_app, !list_elem_of_singleton; auto).
  assert (Hdetach : forall X Y, X <> Y -> Some X ∈ m_Callables both ->
            Some Y ∈ m_Callables both ->
            exists e', detach_impl X both = Done e' /\
              matching Y e' = matching Y both /\
              Y ∈ invoked (operator_call prog e' args w)).
  { intros X Y HXY HX HY.
    destruct (detach_impl_defined X both) as (e' & Hd).
    { apply Exists_exists. exists (Some X). split; [done|apply Hself]. }
    exists e'. split; [done|].
    pose proof (detach_impl_matching X Y both e' (not_eq_sym HXY) Hd) as Hm.
    split; [done|]. apply matching_invoked.
    - eapply well_formed_sublist; [by eapply detach_impl_sublist|done].
    - rewrite Hm. by apply Hin. }
  split_and!.
  - intros [|T1 o1 m1] [|T2 o2 m2]; simpl; try discriminate. intros _ _.
    destruct (N.eqb_spec T2 T1) as [->|HT]; simpl.
    + rewrite andb_true_iff, !N.eqb_eq. split; [intros [-> ->]; done|].
      intros [[= ->] [= ->]]. done.
    + split; [discriminate|]. intros [_ [= ? _]]. done.
  - by apply (Hdetach A B).
  - by apply (Hdetach B A).
Qed.

Lemma bound_method_identity_witness :
  well_formed three /\ objA <> objB /\
  exists e',
    detach_member Counter objA increment
      (attach_member Counter objB increment
         (attach_member Counter objA increment three)) = Done e' /\
    matching (object_callable_handle Counter objB increment) e' =
    matching (object_callable_handle Counter objB increment)
      (attach_member Counter objB increment
         (attach_member Counter objA increment three)) /\
    object_callable_handle Counter objB increment
      ∈ invoked (operator_call counting e' 0%Z []).
Proof.
  assert (Hwf : well_formed three) by (repeat constructor; by eexists).
  assert (Hne : objA <> objB) by (vm_compute; discriminate).
  split; [exact Hwf|]. split; [exact Hne|].
  exact (proj1 (proj2 (bound_method_identity counting Counter increment objA objB
                         three 0%Z [] Hwf Hne))).
Defined.

(** ** Duplicates *)

Lemma filter_eq_cons_self {A} `{!EqDecision A} (h : A) (l : list A) :
  length (filter (fun x => x = h) (l ++ [h; h])) =
  length (filter (fun x => x = h) l) + 2.
Proof.
  rewrite filter_app, length_app.
  by rewrite !filter_cons_True, filter_nil by done.
Qed.

Lemma filter_none {A} (P : A -> Prop) `{!forall x, Decision (P x)} (l : list A) :
  Forall (fun x => ~ P x) l -> filter P l = [].
Proof.
  induction 1 as [|x l Hx _ IH]; [done|].
  by rewrite filter_cons_False, IH.
Qed.

Lemma filter_unmatched_self (h : base_callable) (v : list pointer) :
  filter (fun p => compare h p = false) (v ++ [Some h; Some h]) =
  filter (fun p => compare h p = false) v.
Proof.
  assert (Hself : ~ compare h (Some h) = false)
    by (rewrite (proj2 (compare_true_iff h h) eq_refl); discriminate).
  rewrite filter_app.
  by rewrite !filter_cons_False, filter_nil, app_nil_r by done.
Qed.

(** C7: [attach] never looks at what is already stored.  Attaching one
    plain callable twice adds two records, so the next [operator()]
    invokes it twice more than before - exactly twice on a dispatcher that
    held nothing.  [detach_all] on it is then defined and leaves no slot
    matching it (the other slots stay), so a further [operator()] does not
    invoke it at all. *)
Theorem attach_keeps_duplicates {R Args World : Type} (prog : program R Args World)
    (T : type_id) (f : address) (e : event) (args : Args) (w : World) :
  well_formed e ->
  let h := generic_callable_handle T f in
  let e2 := attach T f (attach T f e) in
  m_Callables e2 = m_Callables e ++ [Some h; Some h] /\
  times_invoked h (operator_call prog e2 args w) =
  times_invoked h (operator_call prog e args w) + 2 /\
  times_invoked h (operator_call prog (attach T f (attach T f new_event)) args w) = 2 /\
  exists e3,
    detach_all T f e2 = Done e3 /\
    m_Callables e3 = filter (fun p => compare h p = false) (m_Callables e) /\
    matching h e3 = [] /\
    times_invoked h (operator_call prog e3 args w) = 0.
Proof.
  intros He h e2.
  assert (Hwf2 : forall e0, well_formed e0 -> well_formed (attach T f (attach T f e0)))
    by (intros e0 H0; by apply well_formed_attach, well_formed_attach).
  assert (Hrec : forall e0, records (attach T f (attach T f e0)) = records e0 ++ [h; h])
    by (intros e0; by rewrite !records_attach, <- app_assoc).
  assert (Hself : compare h (Some h) = true) by by apply compare_true_iff.
  split_and!.
  - simpl. by rewrite <- app_assoc.
  - rewrite (times_invoked_records prog e2) by by apply Hwf2.
    rewrite (times_invoked_records prog e) by done.
    unfold e2. rewrite Hrec. apply filter_eq_cons_self.
  - rewrite times_invoked_records by (apply Hwf2; constructor).
    rewrite Hrec. by rewrite filter_eq_cons_self.
  - assert (H2 : m_Callables e2 = m_Callables e ++ [Some h; Some h])
      by (simpl; by rewrite <- app_assoc).
    eexists. split; [apply detach_all_impl_filter|].
    cbn [m_Callables]. rewrite H2, filter_unmatched_self.
    assert (Hnone : Forall (fun p => ~ compare h p = true)
              (filter (fun p => compare h p = false) (m_Callables e))).
    { apply Forall_forall. intros p [Hp _]%list_elem_of_filter. congruence. }
    split_and!; [done| |].
    + unfold matching. cbn [m_Callables]. by apply filter_none.
    + rewrite times_invoked_records.
      * apply length_zero_iff_nil, filter_none, Forall_forall.
        intros x (p & Hp & Hx)%list_elem_of_omap ->. simpl in *.
        destruct p as [h'|]; [|done]. injection Hx as ->.
        by eapply (proj1 (Forall_forall _ _) Hnone).
      * apply (well_formed_sublist e); [apply sublist_filter|done].
Qed.

Lemma attach_keeps_duplicates_witness :
  well_formed three /\
  times_invoked (generic_callable_handle fn_ptr L1)
    (operator_call logging (attach fn_ptr L1 (attach fn_ptr L1 three)) 0%Z []) = 3 /\
  times_invoked (generic_callable_handle fn_ptr L1) (operator_call logging twice 0%Z []) = 2.
Proof.
  assert (Hwf : well_formed three) by (repeat constructor; by eexists).
  split; [exact Hwf|].
  destruct (attach_keeps_duplicates logging fn_ptr L1 three 0%Z [] Hwf)
    as (_ & Hmore & Htwo & _).
  split; [exact Hmore|exact Htwo].
Defined.

(** ** The arguments a record is handed *)

(** What the record invoked as number [i] of a sweep receives is what the
    caller passed, as long as the records invoked before it in this sweep
    handed the argument objects back as they had received them. *)
Lemma for_each_invoke_nth {R Args World : Type} (prog : program R Args World)
    (v : list pointer) (args : Args) (w : World) (i : nat) (h : base_callable)
    (a : Args) :
  calls (for_each_invoke prog v args w) !! i = Some (h, a) ->
  unmodified_before prog (omap id v) (args, w) i ->
  a = args.
Proof.
  revert args w i. induction v as [|[h0|] v IH]; intros args w i; simpl; try done.
  change (omap id (Some h0 :: v)) with (h0 :: omap id v).
  destruct i as [|i].
  - destruct (invoke prog h0 args w) as [r [args' w']]. simpl. by intros [= _ ->] _.
  - intros Hi Hun.
    assert (H0 : (effect prog h0 args w).1 = args) by (apply (Hun 0 h0); [lia|done]).
    assert (Hrest : unmodified_before prog (omap id v) (effect prog h0 args w) i).
    { intros j h' Hj Hh'. apply (Hun (S j) h'); [lia|done]. }
    unfold effect in H0, Hrest.
    destruct (invoke prog h0 args w) as [r [args' w']]. simpl in *. subst args'.
    by eapply IH.
Qed.

(** C8, as the code has it: the record invoked as number [i] of a sweep
    receives exactly the values the caller supplied whenever the records
    invoked before it in that sweep handed the arguments back as they had
    received them; so every record does when this holds of the whole
    sweep. *)
Theorem unmodified_arguments_reach_every_record {R Args World : Type}
    (prog : program R Args World) (e : event) (args : Args) (w : World) :
  (forall i h a,
     calls (operator_call prog e args w) !! i = Some (h, a) ->
     unmodified_before prog (records e) (args, w) i ->
     a = args) /\
  (unmodified_before prog (records e) (args, w) (length (records e)) ->
   hands_caller_values (operator_call prog e args w) args).
Proof.
  assert (Hnth : forall i h a,
            calls (operator_call prog e args w) !! i = Some (h, a) ->
            unmodified_before prog (records e) (args, w) i -> a = args)
    by (intros i h a; apply for_each_invoke_nth).
  split; [exact Hnth|].
  intros Hall. apply Forall_forall. intros a Ha.
  apply list_elem_of_lookup in Ha as [i Hi]. unfold received in Hi.
  rewrite list_lookup_fmap in Hi.
  apply fmap_Some in Hi as ([h a'] & Hc & ->). apply (Hnth i h a' Hc).
  intros j h' Hj Hh'. apply Hall; [|done]. by eapply lookup_lt_Some.
Qed.

Lemma unmodified_arguments_reach_every_record_witness :
  unmodified_before guarded (records three) (0%Z, []) (length (records three)) /\
  hands_caller_values (operator_call guarded three 0%Z []) 0%Z /\
  ~ unmodified_before guarded (records three) (101%Z, []) 1.
Proof.
  assert (Hun : unmodified_before guarded (records three) (0%Z, [])
                  (length (records three))).
  { intros j h Hj. destruct j as [|[|[|j]]]; simpl in Hj; [| | |lia];
      by intros [= <-]. }
  split; [exact Hun|]. split.
  - exact (proj2 (unmodified_arguments_reach_every_record guarded three 0%Z []) Hun).
  - intros Hbad. by specialize (Hbad 0 _ (Nat.lt_0_1) eq_refl).
Defined.

(** C8 as stated fails: on [event<void(int &)>] with a callable that adds
    one to its argument attached twice, the caller passes 0 and the second
    record receives 1. *)
Lemma arguments_changed_by_earlier_record :
  received (operator_call counting twice 0%Z []) = [0%Z; 1%Z] /\
  ~ hands_caller_values (operator_call counting twice 0%Z []) 0%Z.
Proof.
  split; [reflexivity|].
  intros H. unfold hands_caller_values in H.
  apply Forall_cons in H as [_ H]. apply Forall_cons in H as [H _].
  discriminate H.
Qed.

(** ** The public operations, one step at a time *)

(** [well_formed] describes the dispatchers a program can hold, no more
    and no less. *)
Lemma reachable_well_formed (e : event) : reachable e <-> well_formed e.
Proof.
  split.
  - induction 1 as [|T c e _ IH|T o m e _ IH|T c e e' _ IH Hd|T o m e e' _ IH Hd
                    |T c e e' _ IH Hd|T o m e e' _ IH Hd|e _ IH].
    + constructor.
    + by apply well_formed_attach.
    + by apply well_formed_attach_member.
    + eapply well_formed_sublist; [by eapply detach_impl_sublist|done].
    + eapply well_formed_sublist; [by eapply detach_impl_sublist|done].
    + unfold detach_all in Hd. rewrite detach_all_impl_filter in Hd.
      injection Hd as <-. eapply well_formed_sublist; [apply sublist_filter|done].
    + unfold detach_all_member in Hd. rewrite detach_all_impl_filter in Hd.
      injection Hd as <-. eapply well_formed_sublist; [apply sublist_filter|done].
    + constructor.
  - destruct e as [v]. unfold well_formed. simpl.
    induction v as [|p v IH] using rev_ind; intros Hv; [constructor|].
    apply Forall_app in Hv as [Hv [[h ->] _]%Forall_cons].
    destruct h as [T c|T o m].
    + apply (reachable_attach T c {| m_Callables := v |}). auto.
    + apply (reachable_attach_member T o m {| m_Callables := v |}). auto.
Qed.

Lemma bookkeeping_after {World : Type} {Args : Type} (r : result event) (w : World) :
  after (@bookkeeping Args World r w) =
  match r with Done e' => Done (e', w) | Undefined => Undefined end.
Proof. done. Qed.

Lemma detach_step (temp : base_callable) (e : event) :
  well_formed e ->
  match detach_impl temp e with
  | Done e' => well_formed e' /\ order_kept e e'
  | Undefined => Forall (fun p => compare temp p = false) (m_Callables e)
  end.
Proof.
  intros He.
  destruct (match_or_none (fun p => compare temp p) (m_Callables e)) as [Hex|Hno].
  - destruct (detach_impl_defined _ _ Hex) as [e' Hd]. rewrite Hd.
    pose proof (detach_impl_sublist _ _ _ Hd) as Hsub.
    split; [by eapply well_formed_sublist|by right].
  - by rewrite detach_impl_not_found.
Qed.

Lemma detach_all_step (temp : base_callable) (e : event) :
  well_formed e ->
  exists e', detach_all_impl temp e = Done e' /\ well_formed e' /\ order_kept e e'.
Proof.
  intros He. eexists. split; [apply detach_all_impl_filter|].
  assert (Hsub : filter (fun p => compare temp p = false) (m_Callables e)
                   `sublist_of` m_Callables e) by apply sublist_filter.
  split; [by eapply well_formed_sublist|by right].
Qed.

(** C9: started on a dispatcher without null slots, every public operation
    whose behaviour is defined leaves a dispatcher without null slots whose
    storage order is the old one with one slot appended or with slots taken
    out; the one operation that leaves no defined dispatcher behind is a
    [detach] whose probe matches no slot. *)
Theorem invariant_kept_unless_unmatched_detach {R Args World : Type}
    (prog : program R Args World) (op : operation Args) (e : event) (w : World) :
  well_formed e ->
  match after (perform prog op e w) with
  | Done (e', _) => well_formed e' /\ order_kept e e'
  | Undefined =>
      exists temp, detach_probe op = Some temp /\
        Forall (fun p => compare temp p = false) (m_Callables e)
  end.
Proof.
  intros He.
  destruct op as [T c|T o m|T c|T o m|T c|T o m| |args]; cbn [perform];
    rewrite ?bookkeeping_after.
  - split; [by apply well_formed_attach|left; by eexists].
  - split; [by apply well_formed_attach_member|left; by eexists].
  - pose proof (detach_step (generic_callable_handle T c) e He) as Hs.
    unfold detach. destruct (detach_impl _ e); [done|by eexists].
  - pose proof (detach_step (object_callable_handle T o m) e He) as Hs.
    unfold detach_member. destruct (detach_impl _ e); [done|by eexists].
  - destruct (detach_all_step (generic_callable_handle T c) e He) as (e' & Hd & He').
    unfold detach_all. by rewrite Hd.
  - destruct (detach_all_step (object_callable_handle T o m) e He) as (e' & Hd & He').
    unfold detach_all_member. by rewrite Hd.
  - split; [constructor|right; apply sublist_nil_l].
  - cbn [after]. unfold operator_call.
    destruct (for_each_invoke_all prog _ args w He) as [_ (args' & w' & ->)].
    split; [done|by right].
Qed.

Lemma invariant_kept_unless_unmatched_detach_witness :
  well_formed (attach fn_ptr L1 new_event) /\
  after (perform logging (Detach fn_ptr L2) (attach fn_ptr L1 new_event) []) = Undefined /\
  exists temp,
    detach_probe (@Detach Z fn_ptr L2) = Some temp /\
    Forall (fun p => compare temp p = false) (m_Callables (attach fn_ptr L1 new_event)).
Proof.
  assert (Hwf : well_formed (attach fn_ptr L1 new_event))
    by (repeat constructor; by eexists).
  split; [exact Hwf|]. split; [reflexivity|].
  exact (invariant_kept_unless_unmatched_detach logging (Detach fn_ptr L2)
           (attach fn_ptr L1 new_event) [] Hwf).
Defined.

(** *** The virtual calls each member function makes *)

Section ComputationFacts.
Context {R Args World : Type}.
Implicit Types (prog : program R Args World) (w : World) (v : list pointer).

Lemma find_if_c_spec (temp : base_callable) v prog w :
  find_if_c temp v prog w =
  (compare_call temp <$> take (S (std_find_if (fun p => compare temp p) v)) v,
   Done (std_find_if (fun p => compare temp p) v, w)).
Proof.
  induction v as [|x v IH]; [done|].
  simpl. unfold bind, call_compare. destruct (compare temp x); [done|].
  rewrite IH. simpl. by rewrite app_nil_r.
Qed.

Lemma remove_if_loop_c_spec (temp : base_callable) (front junk rest : list pointer)
    prog w :
  remove_if_loop_c temp front junk rest prog w =
  (compare_call temp <$> rest,
   Done (remove_if_loop (fun p => compare temp p) front junk rest, w)).
Proof.
  revert front junk. induction rest as [|x rest IH]; intros front junk; [done|].
  simpl. unfold bind, call_compare. destruct (compare temp x).
  - by rewrite IH.
  - destruct junk; by rewrite IH.
Qed.

Lemma detach_impl_c_spec (temp : base_callable) (e : event) prog w :
  detach_impl_c temp e prog w =
  (compare_call temp <$>
     take (S (std_find_if (fun p => compare temp p) (m_Callables e))) (m_Callables e),
   match detach_impl temp e with
   | Done e' => Done (e', w)
   | Undefined => Undefined
   end).
Proof.
  unfold detach_impl_c, detach_impl, bind. rewrite find_if_c_spec.
  destruct (vector_erase _ _); simpl; by rewrite app_nil_r.
Qed.

Lemma detach_all_impl_c_spec (temp : base_callable) (e : event) prog w :
  detach_all_impl_c temp e prog w =
  (compare_call temp <$> m_Callables e,
   match detach_all_impl temp e with
   | Done e' => Done (e', w)
   | Undefined => Undefined
   end).
Proof.
  unfold detach_all_impl_c, detach_all_impl, std_remove_if, bind.
  rewrite remove_if_loop_c_spec.
  destruct (remove_if_loop _ _ _ _) as [v' new_end].
  destruct (vector_erase_range _ _ _); simpl; by rewrite app_nil_r.
Qed.

Lemma for_each_invoke_c_spec v (args : Args) prog w :
  for_each_invoke_c v args prog w =
  ((fun c => invoke_call c.1 c.2) <$> calls (for_each_invoke prog v args w),
   final (for_each_invoke prog v args w)).
Proof.
  revert args w. induction v as [|[h|] v IH]; intros args w; [done| |done].
  simpl. unfold bind, call_invoke.
  destruct (invoke prog h args w) as [r [args' w']]. by rewrite IH.
Qed.

(** The calls a removing operation makes: [compare] on the probe it built,
    with a slot of the vector as argument. *)
Lemma compare_calls_of_probe (temp : base_callable) (v v' : list pointer) :
  v' `sublist_of` v ->
  Forall (fun c => is_invoke_call (Args:=Args) c = false) (compare_call temp <$> v') /\
  (forall this bc, compare_call (Args:=Args) this bc ∈ compare_call temp <$> v' ->
     this = temp /\ bc ∈ v).
Proof.
  intros Hsub. split.
  - apply Forall_fmap, Forall_forall. by intros.
  - intros this bc (x & [= -> ->] & Hx)%list_elem_of_fmap.
    split; [done|]. by eapply elem_of_sublist.
Qed.

(** C10: written as computations that have the attached code and the
    world at hand and can call both virtual functions of a record,
    [attach], [detach], [detach_all] and [clear], in every overload, make
    no [invoke] call whenever they run to their end: [attach] and [clear]
    call nothing, the removing ones only call [compare] on their own probe
    with slots of the vector as arguments; the world is as it was and the
    dispatcher is the one the operation is to leave.  [operator()] is the
    one that applies callables: it makes one [invoke] call per invocation
    of its sweep, with the arguments the record is handed. *)
Theorem bookkeeping_invokes_nothing prog (op : operation Args) (e : event) w :
  (forall t e' w',
     is_bookkeeping op = true ->
     perform_c op e prog w = (t, Done (e', w')) ->
     Forall (fun c => is_invoke_call c = false) t /\
     (forall this bc, compare_call this bc ∈ t ->
        removal_probe op = Some this /\ bc ∈ m_Callables e) /\
     w' = w /\
     after (perform prog op e w) = Done (e', w)) /\
  (forall args,
     (perform_c (Call args) e prog w).1 =
     (fun c => invoke_call c.1 c.2) <$> calls (operator_call prog e args w)).
Proof.
  split.
  - intros t e' w' Hop Hrun.
    assert (Hnone : forall e0, (t, Done (e', w')) = ([], Done (e0, w)) ->
              after (perform prog op e w) = Done (e0, w) ->
              Forall (fun c => is_invoke_call (Args:=Args) c = false) t /\
              (forall this bc, compare_call this bc ∈ t ->
                 removal_probe op = Some this /\ bc ∈ m_Callables e) /\
              w' = w /\ after (perform prog op e w) = Done (e', w)).
    { intros e0 [= -> -> ->] Hafter. split_and!; [constructor| |done..].
      intros this bc Hin. by apply elem_of_nil in Hin. }
    assert (Hprobe : forall temp v' (r : result event),
              v' `sublist_of` m_Callables e ->
              removal_probe op = Some temp ->
              after (perform prog op e w) =
                match r with Done e0 => Done (e0, w) | Undefined => Undefined end ->
              (t, Done (e', w')) =
                (compare_call temp <$> v',
                 match r with Done e0 => Done (e0, w) | Undefined => Undefined end) ->
              Forall (fun c => is_invoke_call (Args:=Args) c = false) t /\
              (forall this bc, compare_call this bc ∈ t ->
                 removal_probe op = Some this /\ bc ∈ m_Callables e) /\
              w' = w /\ after (perform prog op e w) = Done (e', w)).
    { intros temp v' r Hsub Hp Hafter Heq. destruct r as [e0|]; [|done].
      injection Heq as -> -> ->.
      destruct (compare_calls_of_probe temp _ _ Hsub) as [Hno Hcmp].
      split_and!; [done| |done..].
      intros this bc [-> Hbc]%Hcmp. by rewrite Hp. }
    destruct op as [T c|T o m|T c|T o m|T c|T o m| |args]; try discriminate;
      cbn [perform_c] in Hrun.
    + by apply (Hnone (attach T c e)).
    + by apply (Hnone (attach_member T o m e)).
    + rewrite detach_impl_c_spec in Hrun.
      by eapply Hprobe; [apply sublist_take|..].
    + rewrite detach_impl_c_spec in Hrun.
      by eapply Hprobe; [apply sublist_take|..].
    + rewrite detach_all_impl_c_spec in Hrun.
      by eapply (Hprobe _ (m_Callables e)).
    + rewrite detach_all_impl_c_spec in Hrun.
      by eapply (Hprobe _ (m_Callables e)).
    + by apply (Hnone (clear e)).
  - intros args. cbn [perform_c]. unfold bind, operator_call.
    rewrite for_each_invoke_c_spec.
    destruct (final (for_each_invoke prog (m_Callables e) args w)) as [[a0 w0]|];
      simpl; by rewrite ?app_nil_r.
Qed.
End ComputationFacts.

Lemma bookkeeping_invokes_nothing_witness :
  is_bookkeeping (@Detach Z fn_ptr L2) = true /\
  perform_c (Detach fn_ptr L2) three counting [] =
  ([compare_call (generic_callable_handle fn_ptr L2)
      (Some (generic_callable_handle fn_ptr L1));
    compare_call (generic_callable_handle fn_ptr L2)
      (Some (generic_callable_handle fn_ptr L2))],
   Done (attach fn_ptr L3 (attach fn_ptr L1 new_event), [])) /\
  Forall (fun c => is_invoke_call c = false)
    [compare_call (Args:=Z) (generic_callable_handle fn_ptr L2)
       (Some (generic_callable_handle fn_ptr L1));
     compare_call (generic_callable_handle fn_ptr L2)
       (Some (generic_callable_handle fn_ptr L2))] /\
  (perform_c (Call 5%Z) three counting []).1 =
  [invoke_call (generic_callable_handle fn_ptr L1) 5%Z;
   invoke_call (generic_callable_handle fn_ptr L2) 6%Z;
   invoke_call (generic_callable_handle fn_ptr L3) 7%Z].
Proof.
  split; [reflexivity|]. split; [reflexivity|].
  destruct (bookkeeping_invokes_nothing counting (Detach fn_ptr L2) three [])
    as [Hbook Hcall].
  split.
  - exact (proj1 (Hbook _ _ _ eq_refl eq_refl)).
  - exact (Hcall 5%Z).
Defined.

(** ** The scenarios of the specification, run on the model *)

Example three_lambdas_log :
  final (operator_call logging three 0%Z []) = Done (0%Z, [L1; L2; L3]).
Proof. reflexivity. Qed.

Example three_lambdas_detach_second :
  exists e', detach fn_ptr L2 three = Done e' /\
    final (operator_call logging e' 0%Z [L1; L2; L3]) = Done (0%Z, [L1; L2; L3; L1; L3]).
Proof. eexists. split; reflexivity. Qed.

Example member_attached_twice :
  final (operator_call logging
           (attach_member Counter objA increment
              (attach_member Counter objA increment new_event)) 0%Z [])
  = Done (0%Z, [objA; objA]).
Proof. reflexivity. Qed.

Example clear_then_invoke :
  operator_call logging (clear three) 0%Z [] = {| calls := []; final := Done (0%Z, []) |}.
Proof. reflexivity. Qed.

Example lvalue_and_rvalue_attach_differ :
  compare (generic_callable_handle fn_ref L1) (Some (generic_callable_handle fn_ptr L1))
  = false.
Proof. reflexivity. Qed.

Example by_value_argument_moved_from :
  received (operator_call consuming twice (Some 5%Z) []) = [Some 5%Z; None].
Proof. reflexivity. Qed.

(** * Further properties of the class *)

(** ** The overloads and their common bodies *)

Lemma attach_record_callables (h : base_callable) (e : event) :
  m_Callables (attach_record h e) = m_Callables e ++ [Some h].
Proof. by destruct h. Qed.

Lemma detach_record_impl (h : base_callable) (e : event) :
  detach_record h e = detach_impl h e.
Proof. by destruct h. Qed.

Lemma detach_all_record_filter (h : base_callable) (e : event) :
  detach_all_record h e =
  Done {| m_Callables := filter (fun p => compare h p = false) (m_Callables e) |}.
Proof. destruct h; apply detach_all_impl_filter. Qed.

Lemma well_formed_attach_record (h : base_callable) (e : event) :
  well_formed e -> well_formed (attach_record h e).
Proof.
  destruct h; [apply well_formed_attach|apply well_formed_attach_member].
Qed.

Lemma records_attach_record (h : base_callable) (e : event) :
  records (attach_record h e) = records e ++ [h].
Proof. destruct h; [apply records_attach|apply records_attach_member]. Qed.

Lemma event_eq (e e' : event) : m_Callables e = m_Callables e' -> e = e'.
Proof. destruct e, e'. simpl. by intros ->. Qed.

(** A slot the probe matches holds a record equal to the probe. *)
Lemma compare_true_slot (temp : base_callable) (p : pointer) :
  compare temp p = true <-> p = Some temp.
Proof.
  destruct p as [h|].
  - rewrite compare_true_iff. split; congruence.
  - rewrite compare_null. split; discriminate.
Qed.

Lemma compare_false_slot (temp : base_callable) (p : pointer) :
  compare temp p = false <-> p <> Some temp.
Proof.
  rewrite <- compare_true_slot. destruct (compare temp p); split; congruence.
Qed.

(** ** Attach, then detach *)

(** X2: [detach] right after [attach] of the same argument is always
    defined.  On a dispatcher that held no matching record it gives the
    dispatcher back as it was; on one that did, it is the earlier record
    that goes and the new one stays at the end, so the same records are
    stored but the callable has moved to the last place. *)
Theorem detach_after_attach (h : base_callable) (e : event) :
  (Forall (fun p => compare h p = false) (m_Callables e) ->
   detach_record h (attach_record h e) = Done e) /\
  (forall before r after,
     m_Callables e = before ++ r :: after ->
     Forall (fun p => compare h p = false) before -> compare h r = true ->
     detach_record h (attach_record h e) =
     Done {| m_Callables := before ++ after ++ [Some h] |}) /\
  (exists e', detach_record h (attach_record h e) = Done e' /\
     m_Callables e' ≡ₚ m_Callables e).
Proof.
  assert (Hself : compare h (Some h) = true) by by apply compare_true_iff.
  assert (Hnew : Forall (fun p => compare h p = false) (m_Callables e) ->
                 detach_record h (attach_record h e) = Done e).
  { intros Hno. rewrite detach_record_impl, <- (event_eta (attach_record h e)).
    rewrite attach_record_callables, detach_impl_found by done.
    by rewrite app_nil_r, event_eta. }
  assert (Hold : forall before r after,
            m_Callables e = before ++ r :: after ->
            Forall (fun p => compare h p = false) before -> compare h r = true ->
            detach_record h (attach_record h e) =
            Done {| m_Callables := before ++ after ++ [Some h] |}).
  { intros before r after Hv Hb Hr.
    rewrite detach_record_impl, <- (event_eta (attach_record h e)).
    rewrite attach_record_callables, Hv, <- app_assoc. simpl.
    by apply detach_impl_found. }
  split_and!; [done..|].
  destruct (match_or_none (fun p => compare h p) (m_Callables e)) as [Hex|Hno].
  - destruct (first_match_split _ _ Hex) as (before & r & after & Hv & Hb & Hr).
    eexists. split; [by eapply Hold|]. simpl. rewrite Hv.
    apply compare_true_slot in Hr as ->.
    apply Permutation_app; [done|]. symmetry. apply Permutation_cons_append.
  - exists e. split; [by apply Hnew|done].
Qed.

Lemma detach_after_attach_witness :
  Forall (fun p => compare (generic_callable_handle fn_ref L1) p = false)
    (m_Callables three) /\
  detach fn_ref L1 (attach fn_ref L1 three) = Done three /\
  detach fn_ptr L1 (attach fn_ptr L1 three) =
  Done {| m_Callables := [Some (generic_callable_handle fn_ptr L2);
                          Some (generic_callable_handle fn_ptr L3);
                          Some (generic_callable_handle fn_ptr L1)] |}.
Proof.
  assert (Hno : Forall (fun p => compare (generic_callable_handle fn_ref L1) p = false)
                  (m_Callables three)) by (repeat constructor).
  split; [exact Hno|]. split.
  - exact (proj1 (detach_after_attach (generic_callable_handle fn_ref L1) three) Hno).
  - exact (proj1 (proj2 (detach_after_attach (generic_callable_handle fn_ptr L1) three))
             [] (Some (generic_callable_handle fn_ptr L1))
             [Some (generic_callable_handle fn_ptr L2);
              Some (generic_callable_handle fn_ptr L3)]
             eq_refl (Forall_nil_2 _) eq_refl).
Defined.

Lemma attach_times_callables (k : nat) (h : base_callable) (e : event) :
  m_Callables (attach_times k h e) = m_Callables e ++ replicate k (Some h).
Proof.
  induction k as [|k IH]; [simpl; by rewrite app_nil_r|].
  change (attach_times (S k) h e) with (attach_record h (attach_times k h e)).
  by rewrite attach_record_callables, IH, <- app_assoc, <- replicate_S_end.
Qed.

Lemma detach_times_replicate (k : nat) (h : base_callable) (v : list pointer) :
  Forall (fun p => compare h p = false) v ->
  detach_times k h {| m_Callables := v ++ replicate k (Some h) |} =
  Done {| m_Callables := v |}.
Proof.
  intros Hv. induction k as [|k IH]; simpl; [by rewrite app_nil_r|].
  rewrite detach_record_impl, detach_impl_found; [done..|].
  by apply compare_true_iff.
Qed.

(** X3: on a dispatcher that holds no matching record, [k] calls of
    [attach] with one argument followed by [k] calls of [detach] with it
    give the dispatcher back as it was, and one more [detach] is
    undefined. *)
Theorem detach_times_after_attach_times (k : nat) (h : base_callable) (e : event) :
  Forall (fun p => compare h p = false) (m_Callables e) ->
  detach_times k h (attach_times k h e) = Done e /\
  detach_times (S k) h (attach_times k h e) = Undefined.
Proof.
  intros Hno.
  assert (Hk : detach_times k h (attach_times k h e) = Done e).
  { rewrite <- (event_eta (attach_times k h e)), attach_times_callables.
    by rewrite detach_times_replicate, event_eta. }
  split; [done|].
  revert Hk. generalize (attach_times k h e). clear -Hno.
  induction k as [|k IH]; intros e0; simpl.
  - intros [= ->]. by rewrite detach_record_impl, detach_impl_not_found.
  - destruct (detach_record h e0) as [e1|]; simpl; [|done]. apply IH.
Qed.

Lemma detach_times_after_attach_times_witness :
  Forall (fun p => compare (object_callable_handle Counter objA increment) p = false)
    (m_Callables three) /\
  detach_times 2 (object_callable_handle Counter objA increment)
    (attach_times 2 (object_callable_handle Counter objA increment) three) = Done three /\
  detach_times 3 (object_callable_handle Counter objA increment)
    (attach_times 2 (object_callable_handle Counter objA increment) three) = Undefined.
Proof.
  assert (Hno : Forall
            (fun p => compare (object_callable_handle Counter objA increment) p = false)
            (m_Callables three)) by (repeat constructor).
  split; [exact Hno|].
  exact (detach_times_after_attach_times 2 _ three Hno).
Defined.

(** ** Detaches combined *)

Lemma filter_split_length {A} (P : A -> bool) (l : list A) :
  length (filter (fun x => P x = false) l) + length (filter (fun x => P x = true) l)
  = length l.
Proof.
  induction l as [|x l IH]; [done|].
  destruct (P x) eqn:Hx.
  - rewrite filter_cons_False, filter_cons_True by congruence. simpl. lia.
  - rewrite filter_cons_True, filter_cons_False by congruence. simpl. lia.
Qed.

(** X4: the size of the vector after each operation: [attach] adds one
    slot, a defined [detach] takes out exactly one, [detach_all] takes out
    as many as the probe matches, [clear] leaves none. *)
Theorem registry_size (h : base_callable) (e : event) :
  length (m_Callables (attach_record h e)) = S (length (m_Callables e)) /\
  (forall e', detach_record h e = Done e' ->
     S (length (m_Callables e')) = length (m_Callables e)) /\
  (forall e', detach_all_record h e = Done e' ->
     length (m_Callables e') + length (matching h e) = length (m_Callables e)) /\
  length (m_Callables (clear e)) = 0.
Proof.
  split_and!; [| | |done].
  - rewrite attach_record_callables, length_app. simpl. lia.
  - intros e'. rewrite detach_record_impl.
    intros (before & r & after & -> & _ & _ & ->)%detach_impl_done.
    rewrite !length_app. simpl. lia.
  - intros e'. rewrite detach_all_record_filter. intros [= <-].
    apply (filter_split_length (fun p => compare h p)).
Qed.

Lemma registry_size_witness :
  S (length (m_Callables (attach fn_ptr L3 (attach fn_ptr L1 new_event)))) =
  length (m_Callables three) /\
  0 + length (matching (generic_callable_handle fn_ptr L1) twice) = 2.
Proof.
  pose proof (registry_size (generic_callable_handle fn_ptr L2) three)
    as (_ & Hdetach & _).
  pose proof (registry_size (generic_callable_handle fn_ptr L1) twice)
    as (_ & _ & Hall & _).
  split.
  - exact (Hdetach (attach fn_ptr L3 (attach fn_ptr L1 new_event)) eq_refl).
  - exact (Hall new_event eq_refl).
Defined.

(** X5: [detach_all] calls can be made in either order with the same
    result, and a second [detach_all] with the same argument changes
    nothing. *)
Theorem detach_all_commutes (a b : base_callable) (e : event) :
  and_then (detach_all_record a e) (detach_all_record b) =
  and_then (detach_all_record b e) (detach_all_record a) /\
  and_then (detach_all_record a e) (detach_all_record a) = detach_all_record a e.
Proof.
  rewrite !detach_all_record_filter. simpl. rewrite !detach_all_record_filter. simpl.
  split; f_equal; apply event_eq; simpl; rewrite list_filter_filter.
  - rewrite list_filter_filter. apply list_filter_iff. tauto.
  - apply list_filter_iff. tauto.
Qed.

(** X6: once a [detach] has gone through, [detach_all] with the same
    argument leaves what it would have left without the [detach]. *)
Theorem detach_all_absorbs_detach (h : base_callable) (e e' : event) :
  detach_record h e = Done e' ->
  detach_all_record h e' = detach_all_record h e.
Proof.
  rewrite detach_record_impl.
  intros (before & r & after & Hv & _ & Hr & Hv')%detach_impl_done.
  rewrite !detach_all_record_filter, Hv, Hv', !filter_app.
  by rewrite (filter_cons_False _ r) by congruence.
Qed.

Lemma detach_all_absorbs_detach_witness :
  detach fn_ptr L1 (attach fn_ptr L1 three) =
  Done {| m_Callables := [Some (generic_callable_handle fn_ptr L2);
                          Some (generic_callable_handle fn_ptr L3);
                          Some (generic_callable_handle fn_ptr L1)] |} /\
  detach_all fn_ptr L1
    {| m_Callables := [Some (generic_callable_handle fn_ptr L2);
                       Some (generic_callable_handle fn_ptr L3);
                       Some (generic_callable_handle fn_ptr L1)] |} =
  detach_all fn_ptr L1 (attach fn_ptr L1 three).
Proof.
  split; [reflexivity|].
  exact (detach_all_absorbs_detach (generic_callable_handle fn_ptr L1)
           (attach fn_ptr L1 three) _ eq_refl).
Defined.

(** X7: attaching one thing and detaching another do not interfere: a
    [detach] or [detach_all] whose argument builds a different record -
    another address, the other overload, or the same callable under another
    type [T] - does after the [attach] what it does before it, defined or
    not, and the new record stays at the end. *)
Theorem attach_commutes_with_detaching (h temp : base_callable) (e : event) :
  h <> temp ->
  detach_record temp (attach_record h e) =
  and_then (detach_record temp e) (fun e' => Done (attach_record h e')) /\
  detach_all_record temp (attach_record h e) =
  and_then (detach_all_record temp e) (fun e' => Done (attach_record h e')).
Proof.
  intros Hne.
  assert (Hh : compare temp (Some h) = false) by by apply compare_false_iff.
  split.
  - rewrite !detach_record_impl.
    destruct (match_or_none (fun p => compare temp p) (m_Callables e)) as [Hex|Hno].
    + destruct (first_match_split _ _ Hex) as (before & r & after & Hv & Hb & Hr).
      rewrite <- (event_eta e), <- (event_eta (attach_record h _)).
      rewrite attach_record_callables. simpl. rewrite Hv, <- app_assoc. simpl.
      rewrite !detach_impl_found by done. simpl. f_equal. apply event_eq.
      rewrite attach_record_callables. simpl. by rewrite <- app_assoc.
    + rewrite (detach_impl_not_found temp e) by done. simpl.
      apply detach_impl_not_found. rewrite attach_record_callables.
      apply Forall_app. split; [done|]. by constructor.
  - rewrite !detach_all_record_filter. simpl. f_equal. apply event_eq.
    rewrite !attach_record_callables, filter_app. simpl.
    by rewrite filter_cons_True, filter_nil by done.
Qed.

Lemma attach_commutes_with_detaching_witness :
  generic_callable_handle fn_ref L1 <> generic_callable_handle fn_ptr L1 /\
  detach fn_ptr L1 (attach fn_ref L1 new_event) = Undefined /\
  detach_all fn_ptr L1 (attach fn_ref L1 new_event) = Done (attach fn_ref L1 new_event).
Proof.
  assert (Hne : generic_callable_handle fn_ref L1 <> generic_callable_handle fn_ptr L1)
    by discriminate.
  split; [exact Hne|].
  exact (attach_commutes_with_detaching (generic_callable_handle fn_ref L1)
           (generic_callable_handle fn_ptr L1) new_event Hne).
Defined.

Lemma detach_impl_cons (temp : base_callable) (p : pointer) (v : list pointer) :
  detach_impl temp {| m_Callables := p :: v |} =
  if compare temp p then Done {| m_Callables := v |}
  else and_then (detach_impl temp {| m_Callables := v |})
         (fun e' => Done {| m_Callables := p :: m_Callables e' |}).
Proof.
  unfold detach_impl, vector_erase. simpl. destruct (compare temp p); simpl.
  - done.
  - repeat case_decide; simpl; try done; lia.
Qed.

(** X8: two [detach] calls with different arguments can be made in either
    order: both orders are defined on the same dispatchers and leave the
    same vector. *)
Theorem detach_commutes (a b : base_callable) (e : event) :
  a <> b ->
  and_then (detach_record a e) (detach_record b) =
  and_then (detach_record b e) (detach_record a).
Proof.
  intros Hne.
  assert (Hswap : forall e0,
            and_then (detach_impl a e0) (detach_impl b) =
            and_then (detach_impl b e0) (detach_impl a)).
  { intros [v]. induction v as [|p v IH]; [done|].
    rewrite !(detach_impl_cons _ p v).
    destruct (compare a p) eqn:Ha, (compare b p) eqn:Hb; simpl.
    - apply compare_true_slot in Ha, Hb. congruence.
    - destruct (detach_impl b {| m_Callables := v |}) as [e1|]; simpl; [|done].
      by rewrite detach_impl_cons, Ha, event_eta.
    - destruct (detach_impl a {| m_Callables := v |}) as [e1|]; simpl; [|done].
      by rewrite detach_impl_cons, Hb, event_eta.
    - destruct (detach_impl a {| m_Callables := v |}) as [e1|] eqn:Ea,
        (detach_impl b {| m_Callables := v |}) as [e2|] eqn:Eb; simpl in *;
        rewrite ?detach_impl_cons, ?Ha, ?Hb; simpl; try done.
      + rewrite !event_eta. by rewrite IH.
      + rewrite !event_eta. by rewrite IH.
      + rewrite !event_eta. by rewrite <- IH. }
  rewrite (detach_record_impl a e), (detach_record_impl b e).
  specialize (Hswap e).
  destruct (detach_impl a e), (detach_impl b e); simpl in *;
    rewrite ?detach_record_impl; done.
Qed.

Lemma detach_commutes_witness :
  generic_callable_handle fn_ptr L1 <> generic_callable_handle fn_ptr L3 /\
  and_then (detach fn_ptr L1 three) (detach fn_ptr L3) =
  Done {| m_Callables := [Some (generic_callable_handle fn_ptr L2)] |} /\
  and_then (detach fn_ptr L3 three) (detach fn_ptr L1) =
  Done {| m_Callables := [Some (generic_callable_handle fn_ptr L2)] |}.
Proof.
  assert (Hne : generic_callable_handle fn_ptr L1 <> generic_callable_handle fn_ptr L3)
    by discriminate.
  split; [exact Hne|]. split; [reflexivity|].
  exact (eq_sym (detach_commutes (generic_callable_handle fn_ptr L1)
                   (generic_callable_handle fn_ptr L3) three Hne)).
Defined.

(** ** Sweeps as folds *)

Section MoreSweeps.
Context {R Args World : Type}.
Implicit Types (prog : program R Args World) (v : list pointer).
Implicit Types (args : Args) (w : World).

(** X9: on a dispatcher without null slots a sweep is the left fold of the
    records' effects: it ends in the arguments and the world obtained by
    applying the effects in storage order, and the record in place [i] is
    handed the arguments as the effects of the records before it left
    them. *)
Theorem sweep_runs_effects_in_order prog (e : event) args w :
  well_formed e ->
  final (operator_call prog e args w) = Done (run_effects prog (records e) (args, w)) /\
  (forall i h, records e !! i = Some h ->
     calls (operator_call prog e args w) !! i =
     Some (h, (run_effects prog (take i (records e)) (args, w)).1)).
Proof.
  intros He. split.
  - by apply for_each_invoke_final.
  - intros i h. by apply for_each_invoke_lookup.
Qed.

(** X10: a record attached to a dispatcher runs last: the sweep first does
    all it did before the [attach] and then hands the new record the
    arguments, and the world, that this left. *)
Theorem attached_record_runs_last prog (h : base_callable) (e : event)
    args w args' w' :
  final (operator_call prog e args w) = Done (args', w') ->
  calls (operator_call prog (attach_record h e) args w) =
  calls (operator_call prog e args w) ++ [(h, args')] /\
  final (operator_call prog (attach_record h e) args w) =
  Done (effect prog h args' w').
Proof.
  intros Hf. unfold operator_call in *.
  rewrite attach_record_callables, for_each_invoke_app, Hf. simpl.
  unfold effect. by destruct (invoke prog h args' w') as [r [a1 w1]].
Qed.

(** X11: a dispatcher reached from a default-constructed one through
    [attach], [detach], [detach_all] and [clear] calls with defined
    behaviour never makes [operator()] dereference a null pointer: the
    sweep is defined and invokes every stored record. *)
Theorem operator_call_defined_on_reachable prog (e : event) args w :
  reachable e ->
  (exists args' w', final (operator_call prog e args w) = Done (args', w')) /\
  invoked (operator_call prog e args w) = records e.
Proof.
  intros He%reachable_well_formed.
  destruct (for_each_invoke_all prog (m_Callables e) args w He) as [Hi Hf].
  by split.
Qed.

(** X12: a defined [detach] takes exactly one invocation of its argument
    out of the next sweep and none of any other record, and the records
    still invoked keep their order. *)
Theorem detach_removes_one_invocation prog (h x : base_callable) (e e' : event)
    args w :
  well_formed e -> detach_record h e = Done e' ->
  times_invoked x (operator_call prog e args w) =
  times_invoked x (operator_call prog e' args w) + (if decide (x = h) then 1 else 0) /\
  invoked (operator_call prog e' args w) `sublist_of`
  invoked (operator_call prog e args w).
Proof.
  intros He Hd. rewrite detach_record_impl in Hd.
  assert (He' : well_formed e')
    by (eapply well_formed_sublist; [by eapply detach_impl_sublist|done]).
  apply detach_impl_done in Hd as (before & r & after & Hv & _ & Hr & Hv').
  apply compare_true_slot in Hr as ->.
  rewrite !times_invoked_records by done. unfold operator_call.
  destruct (for_each_invoke_all prog _ args w He) as [-> _].
  destruct (for_each_invoke_all prog _ args w He') as [-> _].
  unfold records. rewrite Hv, Hv', !omap_app.
  change (omap id (Some h :: after)) with (h :: omap id after). split.
  - rewrite !filter_app, !length_app. case_decide as Hx.
    + rewrite filter_cons_True by done. simpl. lia.
    + rewrite filter_cons_False by congruence. lia.
  - apply sublist_app; [done|]. by apply sublist_cons.
Qed.

(** X13: the member-function overloads keep duplicates as the
    plain-callable ones do: attaching one object and member function twice
    adds two invocations to the next sweep, and [detach_all] on the pair is
    then defined, leaves the other slots as they were and no invocation of
    the pair. *)
Theorem attach_member_keeps_duplicates prog (T : type_id) (o m : address)
    (e : event) args w :
  well_formed e ->
  let h := object_callable_handle T o m in
  let e2 := attach_member T o m (attach_member T o m e) in
  times_invoked h (operator_call prog e2 args w) =
  times_invoked h (operator_call prog e args w) + 2 /\
  exists e3,
    detach_all_member T o m e2 = Done e3 /\
    m_Callables e3 = filter (fun p => compare h p = false) (m_Callables e) /\
    times_invoked h (operator_call prog e3 args w) = 0.
Proof.
  intros He h e2.
  assert (He2 : well_formed e2)
    by by apply well_formed_attach_member, well_formed_attach_member.
  assert (H2 : m_Callables e2 = m_Callables e ++ [Some h; Some h])
    by (simpl; by rewrite <- app_assoc).
  split.
  - rewrite !times_invoked_records by done. unfold e2.
    rewrite !records_attach_member, <- app_assoc. apply filter_eq_cons_self.
  - eexists. split; [apply detach_all_impl_filter|]. cbn [m_Callables].
    rewrite H2, filter_unmatched_self. split; [done|].
    rewrite times_invoked_records.
    + apply length_zero_iff_nil, filter_none, Forall_forall.
      intros x (p & [Hp _]%list_elem_of_filter & Hx)%list_elem_of_omap ->.
      cbn [m_Callables] in *. destruct p as [h'|]; [|done].
      injection Hx as ->. rewrite (proj2 (compare_true_iff h h)) in Hp; done.
    + apply (well_formed_sublist e); [apply sublist_filter|done].
Qed.
End MoreSweeps.

Lemma sweep_runs_effects_in_order_witness :
  well_formed twice /\
  final (operator_call counting twice 5%Z []) = Done (7%Z, [L1; L1]) /\
  calls (operator_call counting twice 5%Z []) !! 1 =
  Some (generic_callable_handle fn_ptr L1, 6%Z).
Proof.
  assert (Hwf : well_formed twice) by (repeat constructor; by eexists).
  split; [exact Hwf|].
  destruct (sweep_runs_effects_in_order counting twice 5%Z [] Hwf) as [Hf Hc].
  split; [exact Hf|exact (Hc 1 _ eq_refl)].
Defined.

Lemma attached_record_runs_last_witness :
  final (operator_call counting twice 5%Z []) = Done (7%Z, [L1; L1]) /\
  calls (operator_call counting (attach_member Counter objA increment twice) 5%Z []) =
  calls (operator_call counting twice 5%Z []) ++
  [(object_callable_handle Counter objA increment, 7%Z)].
Proof.
  split; [reflexivity|].
  exact (proj1 (attached_record_runs_last counting
                  (object_callable_handle Counter objA increment) twice
                  5%Z [] 7%Z [L1; L1] eq_refl)).
Defined.

Lemma operator_call_defined_on_reachable_witness :
  reachable (clear three) /\
  invoked (operator_call logging (attach fn_ptr L2 (clear three)) 0%Z []) =
  [generic_callable_handle fn_ptr L2].
Proof.
  assert (Hr : reachable (clear three))
    by (apply reachable_clear; repeat apply reachable_attach; apply reachable_new).
  split; [exact Hr|].
  exact (proj2 (operator_call_defined_on_reachable logging
                  (attach fn_ptr L2 (clear three)) 0%Z []
                  (reachable_attach fn_ptr L2 _ Hr))).
Defined.

Lemma detach_removes_one_invocation_witness :
  well_formed (attach fn_ptr L1 three) /\
  times_invoked (generic_callable_handle fn_ptr L1)
    (operator_call logging (attach fn_ptr L1 three) 0%Z []) = 1 + 1.
Proof.
  assert (Hwf : well_formed (attach fn_ptr L1 three))
    by (repeat constructor; by eexists).
  split; [exact Hwf|].
  exact (proj1 (detach_removes_one_invocation logging
                  (generic_callable_handle fn_ptr L1) (generic_callable_handle fn_ptr L1)
                  (attach fn_ptr L1 three)
                  {| m_Callables := [Some (generic_callable_handle fn_ptr L2);
                                     Some (generic_callable_handle fn_ptr L3);
                                     Some (generic_callable_handle fn_ptr L1)] |}
                  0%Z [] Hwf eq_refl)).
Defined.

Lemma attach_member_keeps_duplicates_witness :
  well_formed two_objects /\
  times_invoked (object_callable_handle Counter objA increment)
    (operator_call logging
       (attach_member Counter objA increment
          (attach_member Counter objA increment two_objects)) 0%Z []) = 1 + 2.
Proof.
  assert (Hwf : well_formed two_objects) by (repeat constructor; by eexists).
  split; [exact Hwf|].
  exact (proj1 (attach_member_keeps_duplicates logging Counter objA increment
                  two_objects 0%Z [] Hwf)).
Defined.

(** ** Clearing *)

Lemma detach_all_each_filter (hs : list base_callable) (e : event) :
  detach_all_each hs e =
  Done {| m_Callables :=
            filter (fun p => Forall (fun h => compare h p = false) hs) (m_Callables e) |}.
Proof.
  unfold detach_all_each. revert e.
  induction hs as [|h hs IH]; intros e; simpl.
  - rewrite filter_all; [by rewrite event_eta|].
    apply Forall_forall. by constructor.
  - rewrite detach_all_record_filter, IH. simpl. f_equal. apply event_eq. simpl.
    rewrite list_filter_filter. apply list_filter_iff.
    intros p. rewrite Forall_cons. tauto.
Qed.

(** X14: on a dispatcher without null slots [clear] leaves what calling
    [detach_all] for every stored record leaves, the empty vector; the next
    sweep makes no invocation and hands back the arguments and the world
    untouched. *)
Theorem clear_is_detach_all_of_every_record {R Args World : Type}
    (prog : program R Args World) (e : event) (args : Args) (w : World) :
  well_formed e ->
  detach_all_each (records e) e = Done (clear e) /\
  operator_call prog (clear e) args w = {| calls := []; final := Done (args, w) |}.
Proof.
  intros He. split; [|done].
  rewrite detach_all_each_filter. unfold clear. f_equal. apply event_eq. simpl.
  apply filter_none, Forall_forall. intros p Hp Hall.
  destruct (proj1 (Forall_forall _ _) He p Hp) as [h ->].
  assert (Hh : h ∈ records e) by (apply list_elem_of_omap; by exists (Some h)).
  pose proof (proj1 (Forall_forall _ _) Hall h Hh) as Hc. simpl in Hc.
  by rewrite (proj2 (compare_true_iff h h)) in Hc.
Qed.

Lemma clear_is_detach_all_of_every_record_witness :
  well_formed (attach_member Counter objA increment three) /\
  detach_all_each (records (attach_member Counter objA increment three))
    (attach_member Counter objA increment three) = Done new_event.
Proof.
  assert (Hwf : well_formed (attach_member Counter objA increment three))
    by (repeat constructor; by eexists).
  split; [exact Hwf|].
  exact (proj1 (clear_is_detach_all_of_every_record logging
                  (attach_member Counter objA increment three) 0%Z [] Hwf)).
Defined.
